(** * simple_kernel.py: memory manager, interrupt controller, scheduler, kernel

  A shallow embedding of [src/simple_kernel.py].  Python integers are
  unbounded, so every [int] is a [Z]; a [dict] keyed by process id is a
  [gmap string Z]; a Python [list] used through [heapq] is a [list] read
  with [!!] and written with [<[i:=x]>]. *)

From Equations Require Import Equations.
From Stdlib Require Import ZArith Lia.
From stdpp Require Import gmap strings list fin_maps sorting.

Local Open Scope Z_scope.

(** ** MemoryManager *)

Module MemoryManager.

(** The three attributes set by [__init__]. *)
Record t := mk {
  total_memory : Z;
  used_memory : Z;
  memory_map : gmap string Z
}.

(** [MemoryManager(total_memory)]; the default argument is 1024. *)
Definition init (total : Z) : t :=
  {| total_memory := total; used_memory := 0; memory_map := ∅ |}.

Definition default_total_memory : Z := 1024.

(** [allocate_memory(process_id, size)]: the returned [bool] and the
    manager afterwards. *)
Definition allocate_memory (process_id : string) (size : Z) (self : t) : bool * t :=
  if bool_decide (used_memory self + size > total_memory self) then
    (false, self)
  else
    (true,
     {| total_memory := total_memory self;
        used_memory := used_memory self + size;
        memory_map := <[process_id := size]> (memory_map self) |}).

(** [deallocate_memory(process_id)]. *)
Definition deallocate_memory (process_id : string) (self : t) : t :=
  match memory_map self !! process_id with
  | Some size =>
      {| total_memory := total_memory self;
         used_memory := used_memory self - size;
         memory_map := delete process_id (memory_map self) |}
  | None => self
  end.

(** [get_free_memory()]. *)
Definition get_free_memory (self : t) : Z :=
  total_memory self - used_memory self.

(** [sum(self.memory_map.values())]. *)
Definition sum_values (m : gmap string Z) : Z :=
  map_fold (λ _ size acc, size + acc) 0 m.

(** A call made on the manager by its clients. *)
Inductive call :=
| Allocate (process_id : string) (size : Z)
| Deallocate (process_id : string).

Definition step (self : t) (c : call) : t :=
  match c with
  | Allocate process_id size => (allocate_memory process_id size self).2
  | Deallocate process_id => deallocate_memory process_id self
  end.

(** The manager after a whole sequence of calls, and every manager seen
    on the way (one per call, in order). *)
Definition run (self : t) (cs : list call) : t := foldl step self cs.

Fixpoint history (self : t) (cs : list call) : list t :=
  match cs with
  | [] => []
  | c :: cs => step self c :: history (step self c) cs
  end.

(** The accounting invariant of the data model. *)
Definition invariant (self : t) : Prop :=
  used_memory self = sum_values (memory_map self) ∧
  used_memory self ≤ total_memory self.

(** Every allocation in the sequence is for an id that holds no
    reservation when the call is made. *)
Fixpoint fresh_ids (self : t) (cs : list call) : Prop :=
  match cs with
  | [] => True
  | c :: cs =>
      match c with
      | Allocate process_id _ => memory_map self !! process_id = None
      | Deallocate _ => True
      end ∧ fresh_ids (step self c) cs
  end.

Definition nonneg_size (c : call) : Prop :=
  match c with
  | Allocate _ size => 0 ≤ size
  | Deallocate _ => True
  end.

Definition is_allocate (c : call) : Prop :=
  match c with Allocate _ _ => True | Deallocate _ => False end.

End MemoryManager.

Module MM := MemoryManager.

(** ** The Python runtime: exceptions that reach this code

    [TypeError] is what [<] raises between two objects that do not define
    an order (two plain functions); [IndexError] is what list indexing and
    [list.pop] raise out of range. *)

Inductive exn := TypeError | IndexError.

Inductive result (A : Type) :=
| Ok (a : A)
| Raise (e : exn).
Arguments Ok {A} a.
Arguments Raise {A} e.

#[export] Instance result_ret : MRet result := @Ok.
#[export] Instance result_bind : MBind result := λ A B f m,
  match m with Ok a => f a | Raise e => Raise e end.

(** [l[i]] for [0 <= i]. *)
Definition getitem {A} (l : list A) (i : nat) : result A :=
  match l !! i with Some x => Ok x | None => Raise IndexError end.

(** ** heapq

    [heappush] and [heappop] of the standard library (Lib/heapq.py), with
    their helpers [_siftdown] and [_siftup]; [item_lt] is the [<] of the
    items stored in the heap, the only comparison heapq makes.  When a
    comparison raises, the exception escapes and the list is left in a
    state the model does not describe. *)

Module heapq.
Section heapq.
Context {A : Type} (item_lt : A → A → result bool).

(** [parentpos = (pos - 1) >> 1]. *)
Definition parentpos (pos : nat) : nat := (pos - 1) / 2.
#[global] Arguments parentpos : simpl never.

(** The [while pos > startpos] loop of [_siftdown] and the assignment that
    follows it. *)
Equations? _siftdown_loop (heap : list A) (newitem : A) (startpos pos : nat)
  : result (list A) by wf pos lt :=
_siftdown_loop heap newitem startpos pos with decide (startpos < pos)%nat => {
  | right _ := Ok (<[pos := newitem]> heap)
  | left _ with getitem heap (parentpos pos) => {
    | Raise e := Raise e
    | Ok parent with item_lt newitem parent => {
      | Raise e := Raise e
      | Ok true :=
          _siftdown_loop (<[pos := parent]> heap) newitem startpos (parentpos pos)
      | Ok false := Ok (<[pos := newitem]> heap) } } }.
Proof. apply Nat.Div0.div_lt_upper_bound; lia. Qed.

Definition _siftdown (heap : list A) (startpos pos : nat) : result (list A) :=
  newitem ← getitem heap pos;
  _siftdown_loop heap newitem startpos pos.

(** [rightpos < endpos and not heap[childpos] < heap[rightpos]]. *)
Definition right_child_wins (heap : list A) (endpos childpos : nat) : result bool :=
  let rightpos := (childpos + 1)%nat in
  if decide (rightpos < endpos)%nat then
    left ← getitem heap childpos;
    right ← getitem heap rightpos;
    b ← item_lt left right;
    Ok (negb b)
  else Ok false.

(** The [while childpos < endpos] loop of [_siftup], then the assignment
    of [newitem] to the leaf and the call of [_siftdown]. *)
Equations? _siftup_loop (heap : list A) (newitem : A) (endpos startpos pos : nat)
  : result (list A) by wf (endpos - pos)%nat lt :=
_siftup_loop heap newitem endpos startpos pos
    with decide (2 * pos + 1 < endpos)%nat => {
  | right _ := _siftdown (<[pos := newitem]> heap) startpos pos
  | left _ with right_child_wins heap endpos (2 * pos + 1) => {
    | Raise e := Raise e
    | Ok b with getitem heap (if b then 2 * pos + 2 else 2 * pos + 1)%nat => {
      | Raise e := Raise e
      | Ok child :=
          _siftup_loop (<[pos := child]> heap) newitem endpos startpos
                       (if b then 2 * pos + 2 else 2 * pos + 1)%nat } } }.
Proof. destruct b; lia. Qed.

Definition _siftup (heap : list A) (pos : nat) : result (list A) :=
  newitem ← getitem heap pos;
  _siftup_loop heap newitem (length heap) pos pos.

(** [heappush(heap, item)]: the list afterwards. *)
Definition heappush (heap : list A) (item : A) : result (list A) :=
  let heap := heap ++ [item] in
  _siftdown heap 0 (length heap - 1).

(** [heappop(heap)]: the item returned and the list afterwards. *)
Definition heappop (heap : list A) : result (A * list A) :=
  match last heap with
  | None => Raise IndexError
  | Some lastelt =>
      let heap := removelast heap in
      match heap with
      | [] => Ok (lastelt, [])
      | returnitem :: _ =>
          heap ← _siftup (<[0%nat := lastelt]> heap) 0;
          Ok (returnitem, heap)
      end
  end.

End heapq.
End heapq.

(** ** heapq keeps the length of the list

    Every [heappop] shortens the list by one, which is what ends the loop
    of [handle_interrupts] below.  The two unfolding lemmas state the
    loops as the source writes them: one test, one body. *)

Ltac rsimpl := cbn [mbind mret result_bind result_ret] in *.

Lemma parentpos_spec (i : nat) :
  (0 < i)%nat →
  (i = 2 * heapq.parentpos i + 1 ∨ i = 2 * heapq.parentpos i + 2)%nat.
Proof.
  intros Hi. unfold heapq.parentpos.
  pose proof (Nat.div_mod_eq (i - 1) 2) as Hdm.
  pose proof (Nat.mod_upper_bound (i - 1) 2) as Hm. lia.
Qed.

Lemma parentpos_lt (i : nat) : (0 < i)%nat → (heapq.parentpos i < i)%nat.
Proof. intros Hi. pose proof (parentpos_spec i Hi). lia. Qed.

Section heapq_unfold.
Context {A : Type} (item_lt : A → A → result bool).

Lemma _siftdown_loop_unfold (heap : list A) newitem startpos pos :
  heapq._siftdown_loop item_lt heap newitem startpos pos =
    if decide (startpos < pos)%nat then
      parent ← getitem heap (heapq.parentpos pos);
      b ← item_lt newitem parent;
      if b : bool then
        heapq._siftdown_loop item_lt (<[pos := parent]> heap) newitem startpos
                             (heapq.parentpos pos)
      else Ok (<[pos := newitem]> heap)
    else Ok (<[pos := newitem]> heap).
Proof.
  simp _siftdown_loop. destruct (decide _); cbn; [|done].
  destruct (getitem _ _); cbn; [|done].
  destruct (item_lt _ _) as [[]|]; done.
Qed.

Lemma _siftup_loop_unfold (heap : list A) newitem endpos startpos pos :
  heapq._siftup_loop item_lt heap newitem endpos startpos pos =
    if decide (2 * pos + 1 < endpos)%nat then
      b ← heapq.right_child_wins item_lt heap endpos (2 * pos + 1);
      let childpos := (if b : bool then 2 * pos + 2 else 2 * pos + 1)%nat in
      child ← getitem heap childpos;
      heapq._siftup_loop item_lt (<[pos := child]> heap) newitem endpos startpos childpos
    else heapq._siftdown item_lt (<[pos := newitem]> heap) startpos pos.
Proof.
  simp _siftup_loop. destruct (decide _); cbn; [|done].
  destruct (heapq.right_child_wins _ _ _ _) as [b|]; cbn; [|done].
  destruct (getitem _ _); done.
Qed.

Lemma _siftdown_loop_length (heap heap' : list A) newitem startpos pos :
  heapq._siftdown_loop item_lt heap newitem startpos pos = Ok heap' →
  length heap' = length heap.
Proof.
  revert heap. induction (lt_wf pos) as [pos _ IH]. intros heap.
  rewrite _siftdown_loop_unfold. destruct (decide _) as [Hlt|].
  - destruct (getitem _ _) as [parent|]; rsimpl; [|done].
    destruct (item_lt _ _) as [[]|]; rsimpl; [| |done].
    + intros Hrec. apply IH in Hrec.
      * by rewrite length_insert in Hrec.
      * apply parentpos_lt. lia.
    + intros [= <-]. apply length_insert.
  - intros [= <-]. apply length_insert.
Qed.

Lemma _siftdown_length (heap heap' : list A) startpos pos :
  heapq._siftdown item_lt heap startpos pos = Ok heap' → length heap' = length heap.
Proof.
  unfold heapq._siftdown. destruct (getitem _ _); rsimpl; [|done].
  apply _siftdown_loop_length.
Qed.

Lemma _siftup_loop_length (heap heap' : list A) newitem endpos startpos pos :
  heapq._siftup_loop item_lt heap newitem endpos startpos pos = Ok heap' →
  length heap' = length heap.
Proof.
  remember (endpos - pos)%nat as n eqn:Hn. revert heap pos Hn.
  induction (lt_wf n) as [n _ IH]. intros heap pos ->.
  rewrite _siftup_loop_unfold. destruct (decide _) as [Hlt|].
  - destruct (heapq.right_child_wins _ _ _ _) as [b|]; rsimpl; [|done].
    destruct (getitem _ _) as [child|]; rsimpl; [|done].
    intros Hrec. eapply IH in Hrec; [|  |reflexivity].
    + by rewrite length_insert in Hrec.
    + destruct b; lia.
  - intros Hsd. apply _siftdown_length in Hsd. by rewrite length_insert in Hsd.
Qed.

Lemma heappop_length (heap heap' : list A) item :
  heapq.heappop item_lt heap = Ok (item, heap') →
  S (length heap') = length heap.
Proof.
  unfold heapq.heappop. destruct (last heap) as [lastelt|] eqn:Hlast; [|done].
  apply last_Some in Hlast as [front ->]. rewrite removelast_last.
  rewrite length_app. simpl. destruct front as [|returnitem front].
  - intros [= <- <-]. done.
  - destruct (heapq._siftup _ _ _) as [h|] eqn:Hsu; rsimpl; [|done].
    intros [= <- <-]. unfold heapq._siftup in Hsu.
    destruct (getitem _ _); rsimpl; [|done].
    apply _siftup_loop_length in Hsu. rewrite Hsu. simpl. lia.
Qed.

End heapq_unfold.

(** ** Output and handler calls

    What a run leaves behind for an observer: the lines it prints and the
    interrupt handlers it calls, in order.  A computation that prints is a
    pair of its trace and its result; the trace is kept when an exception
    escapes. *)

(** A handler is a function object, known by its identity: [==] between two
    functions is identity and [<] raises [TypeError]. *)
Definition handler := nat.

Inductive event :=
| Printed (line : string)
| Called (h : handler).

Record M (A : Type) := mkM { trace : list event; value : result A }.
Arguments mkM {A} trace value.
Arguments trace {A} m.
Arguments value {A} m.

#[export] Instance M_ret : MRet M := λ A a, mkM [] (Ok a).
#[export] Instance M_bind : MBind M := λ A B f m,
  match value m with
  | Ok a => mkM (trace m ++ trace (f a)) (value (f a))
  | Raise e => mkM (trace m) (Raise e)
  end.

Definition print (line : string) : M () := mkM [Printed line] (Ok ()).
Definition lift {A} (r : result A) : M A := mkM [] r.

(** ** InterruptController *)

Module InterruptController.

(** What calling a handler does, as far as the controller can tell: it
    returns, or it raises an [Exception] carrying a message. *)
Inductive outcome :=
| Returns
| Raises (message : string).

(** [a < b] on the tuples [(priority, handler)] pushed on the queue: the
    first components that differ decide; equal priorities leave the
    handlers, which are equal when they are the same object and otherwise
    have no order. *)
Definition tuple_lt (a b : Z * handler) : result bool :=
  if decide (a.1 = b.1) then
    if decide (a.2 = b.2) then Ok false else Raise TypeError
  else Ok (bool_decide (a.1 < b.1)).

(** [interrupt_queue]; [interrupt_lock] carries no data. *)
Record t := mk { interrupt_queue : list (Z * handler) }.

Definition init : t := {| interrupt_queue := [] |}.

(** [raise_interrupt(priority, handler)]. *)
Definition raise_interrupt (priority : Z) (h : handler) (self : t) : result t :=
  queue ← heapq.heappush tuple_lt (interrupt_queue self) (priority, h);
  Ok {| interrupt_queue := queue |}.

(** [handler()] inside [try ... except Exception as e: print(...)]. *)
Definition guarded_call (invoke : handler → outcome) (h : handler) : list event :=
  match invoke h with
  | Returns => [Called h]
  | Raises message => [Called h; Printed ("Interrupt handler error: " +:+ message)]
  end.

(** A value together with the equation that names it, for the recursion
    below to remember what [heappop] returned. *)
Definition inspect {A} (a : A) : {b : A | a = b} := exist _ a eq_refl.

(** The [while self.interrupt_queue] loop of [handle_interrupts]. *)
Equations? handle_loop (invoke : handler → outcome) (queue : list (Z * handler))
  : M (list (Z * handler)) by wf (length queue) lt :=
handle_loop invoke [] := mkM [] (Ok []);
handle_loop invoke queue with inspect (heapq.heappop tuple_lt queue) => {
  | exist _ (Raise e) _ := mkM [] (Raise e)
  | exist _ (Ok (item, queue')) Hpop :=
      let rest := handle_loop invoke queue' in
      mkM (guarded_call invoke item.2 ++ trace rest) (value rest) }.
Proof. apply heappop_length in Hpop. simpl in *. lia. Qed.

(** [handle_interrupts()]. *)
Definition handle_interrupts (invoke : handler → outcome) (self : t) : M t :=
  queue ← handle_loop invoke (interrupt_queue self);
  mret {| interrupt_queue := queue |}.

(** A sequence of [raise_interrupt] calls, first to last. *)
Fixpoint raise_all (entries : list (Z * handler)) (self : t) : result t :=
  match entries with
  | [] => Ok self
  | (priority, h) :: entries =>
      self ← raise_interrupt priority h self;
      raise_all entries self
  end.

(** The handlers called, in order. *)
Definition calls (tr : list event) : list handler :=
  omap (λ e, match e with Called h => Some h | Printed _ => None end) tr.

End InterruptController.

Module IC := InterruptController.

(** ** Process

    Process objects are shared: the scheduler's queue, its running slot and
    the caller of [create_process] hold references to the same object, and
    the scheduler writes [state] through them.  Objects live in a store,
    a reference is an index in it and always denotes an object of the
    store, read with [!!!]. *)

Definition ref := nat.

(** The attributes set by [__init__]; [context] is never read or written
    again and is left out. *)
Record Process := mkProcess {
  pid : string;
  name : string;
  priority : Z;
  state : string
}.

#[export] Instance Process_inhabited : Inhabited Process :=
  populate (mkProcess "" "" 0 "").

(** [Process(name, priority)], with the string [uuid.uuid4()] produced. *)
Definition Process_init (uuid : string) (name : string) (priority : Z) : Process :=
  {| pid := uuid; name := name; priority := priority; state := "NEW" |}.

(** [Process.__lt__]. *)
Definition Process_lt (objects : list Process) (self other : ref) : result bool :=
  Ok (bool_decide (priority (objects !!! self) < priority (objects !!! other))).

(** [process.state = s]. *)
Definition set_state (s : string) (p : Process) : Process :=
  {| pid := pid p; name := name p; priority := priority p; state := s |}.

(** ** ProcessScheduler *)

Module ProcessScheduler.

(** [ready_queue] and [running_process]; [scheduler_lock] carries no data. *)
Record t := mk {
  ready_queue : list ref;
  running_process : option ref
}.

Definition init : t := {| ready_queue := []; running_process := None |}.

(** [add_process(process)]: the store and the scheduler afterwards; the
    value returned is [process] itself. *)
Definition add_process (process : ref) (objects : list Process) (self : t)
  : result (list Process * t) :=
  queue ← heapq.heappush (Process_lt objects) (ready_queue self) process;
  Ok (alter (set_state "READY") process objects,
      {| ready_queue := queue; running_process := running_process self |}).

(** [schedule_next_process()]: the store, the scheduler and the value
    returned. *)
Definition schedule_next_process (objects : list Process) (self : t)
  : M (list Process * t * option ref) :=
  match ready_queue self with
  | _ :: _ =>
      '(process, queue) ← lift (heapq.heappop (Process_lt objects) (ready_queue self));
      let objects := alter (set_state "RUNNING") process objects in
      _ ← print ("Running process: " +:+ name (objects !!! process) +:+
                 " (PID: " +:+ pid (objects !!! process) +:+ ")");
      mret (objects,
            {| ready_queue := queue; running_process := Some process |},
            Some process)
  | [] =>
      mret (objects,
            {| ready_queue := ready_queue self; running_process := None |},
            None)
  end.

(** [terminate_current_process()]. *)
Definition terminate_current_process (objects : list Process) (self : t)
  : M (list Process * t * option ref) :=
  match running_process self with
  | Some process =>
      let objects := alter (set_state "TERMINATED") process objects in
      _ ← print ("Terminated process: " +:+ name (objects !!! process));
      mret (objects,
            {| ready_queue := ready_queue self; running_process := None |},
            None)
  | None => mret (objects, self, running_process self)
  end.

End ProcessScheduler.

Module PS := ProcessScheduler.

(** ** Kernel *)

Module Kernel.

(** The kernel's components and its [running] flag, with the store of the
    Process objects created so far.  The two thread handles carry no
    data. *)
Record t := mk {
  objects : list Process;
  memory_manager : MM.t;
  interrupt_controller : IC.t;
  process_scheduler : PS.t;
  running : bool
}.

(** [Kernel()]. *)
Definition init : t :=
  {| objects := [];
     memory_manager := MM.init MM.default_total_memory;
     interrupt_controller := IC.init;
     process_scheduler := PS.init;
     running := false |}.

(** [start()], as far as the kernel's own data goes: the two loops it
    launches are [_scheduler_loop] and [_interrupt_loop] below. *)
Definition start (self : t) : t :=
  {| objects := objects self;
     memory_manager := memory_manager self;
     interrupt_controller := interrupt_controller self;
     process_scheduler := process_scheduler self;
     running := true |}.

(** [stop()]. *)
Definition stop (self : t) : t :=
  {| objects := objects self;
     memory_manager := memory_manager self;
     interrupt_controller := interrupt_controller self;
     process_scheduler := process_scheduler self;
     running := false |}.

(** [create_process(name, priority, memory_required)]; [uuid] is the
    string [uuid.uuid4()] gives the new Process.  When the allocation
    fails nothing refers to the new object any more, and the store is
    left without it. *)
Definition create_process (uuid : string) (name : string) (priority : Z)
    (memory_required : Z) (self : t) : M (option ref * t) :=
  let new := Process_init uuid name priority in
  let process := length (objects self) in
  let '(allocated, memory) :=
    MM.allocate_memory (pid new) memory_required (memory_manager self) in
  if allocated then
    '(objects, scheduler) ←
      lift (PS.add_process process (objects self ++ [new]) (process_scheduler self));
    mret (Some process,
          {| objects := objects;
             memory_manager := memory;
             interrupt_controller := interrupt_controller self;
             process_scheduler := scheduler;
             running := running self |})
  else
    _ ← print ("Failed to create process " +:+ name +:+ ": Insufficient memory");
    mret (None, self).

(** One turn of the [while self.running] loop of [_scheduler_loop]:
    schedule, sleep one time slice, terminate, and the conditional that
    frees the memory of [self.process_scheduler.running_process]. *)
Definition _scheduler_loop_body (self : t) : M t :=
  '(objects, scheduler, _) ←
    PS.schedule_next_process (objects self) (process_scheduler self);
  '(objects, scheduler, _) ← PS.terminate_current_process objects scheduler;
  let memory :=
    match PS.running_process scheduler with
    | Some process =>
        MM.deallocate_memory (pid (objects !!! process)) (memory_manager self)
    | None => memory_manager self
    end in
  mret {| objects := objects;
          memory_manager := memory;
          interrupt_controller := interrupt_controller self;
          process_scheduler := scheduler;
          running := running self |}.

(** [_scheduler_loop()] for as long as [slices] time slices: the flag is
    read at the top of every turn. *)
Fixpoint _scheduler_loop (slices : nat) (self : t) : M t :=
  match slices with
  | O => mret self
  | S slices =>
      if running self then
        self ← _scheduler_loop_body self;
        _scheduler_loop slices self
      else mret self
  end.

(** One turn of the loop of [_interrupt_loop]. *)
Definition _interrupt_loop_body (invoke : handler → IC.outcome) (self : t) : M t :=
  controller ← IC.handle_interrupts invoke (interrupt_controller self);
  mret {| objects := objects self;
          memory_manager := memory_manager self;
          interrupt_controller := controller;
          process_scheduler := process_scheduler self;
          running := running self |}.

End Kernel.

(** ** Threads

    The kernel's methods are called from several threads: the caller of
    [create_process], the scheduling loop, the interrupt loop.  A thread
    is at a program point, the statement it runs next; one step of the
    system runs one statement of one thread.  A switch of threads can
    happen between any two statements (and in Python inside a statement
    too; every interleaving below is one that can occur), and a thread
    entering [with lock:] waits until the lock is free.  The lines that
    are printed and the effects of interrupt handlers are left out here;
    the [print] statements that read the scheduler are program points. *)

Module Threads.

Inductive lock := interrupt_lock | scheduler_lock.

#[global] Instance lock_eq_dec : EqDecision lock.
Proof. solve_decision. Defined.

Inductive component := Memory | Interrupts | Scheduler.

(** The lock a component has; the memory manager has none. *)
Definition lock_of (c : component) : option lock :=
  match c with
  | Memory => None
  | Interrupts => Some interrupt_lock
  | Scheduler => Some scheduler_lock
  end.

(** The kernel, and for each lock the thread that holds it. *)
Record shared := mkShared {
  kernel : Kernel.t;
  interrupt_lock_holder : option nat;
  scheduler_lock_holder : option nat
}.

Definition holder (s : shared) (l : lock) : option nat :=
  match l with
  | interrupt_lock => interrupt_lock_holder s
  | scheduler_lock => scheduler_lock_holder s
  end.

Definition set_holder (l : lock) (h : option nat) (s : shared) : shared :=
  match l with
  | interrupt_lock => mkShared (kernel s) h (scheduler_lock_holder s)
  | scheduler_lock => mkShared (kernel s) (interrupt_lock_holder s) h
  end.

Definition set_kernel (k : Kernel.t) (s : shared) : shared :=
  mkShared k (interrupt_lock_holder s) (scheduler_lock_holder s).

Definition set_memory (m : MM.t) (k : Kernel.t) : Kernel.t :=
  Kernel.mk (Kernel.objects k) m (Kernel.interrupt_controller k)
            (Kernel.process_scheduler k) (Kernel.running k).

Definition set_interrupts (c : IC.t) (k : Kernel.t) : Kernel.t :=
  Kernel.mk (Kernel.objects k) (Kernel.memory_manager k) c
            (Kernel.process_scheduler k) (Kernel.running k).

Definition set_scheduler (objects : list Process) (p : PS.t) (k : Kernel.t) : Kernel.t :=
  Kernel.mk objects (Kernel.memory_manager k) (Kernel.interrupt_controller k)
            p (Kernel.running k).

(** The program points of the methods, each with the arguments and local
    variables the rest of the method needs.  [schedule_next_process] and
    [terminate_current_process] end with [return self.running_process],
    a statement of its own that reads the scheduler; in the first it comes
    after the [with] block.  [add_process] returns its argument. *)
Inductive pc :=
| Idle
(* allocate_memory(process_id, size) *)
| allocate_test (process_id : string) (size : Z)
| allocate_record (process_id : string) (size : Z)
| allocate_add (size : Z)
(* deallocate_memory(process_id) *)
| deallocate_test (process_id : string)
| deallocate_subtract (process_id : string)
| deallocate_delete (process_id : string)
(* raise_interrupt(priority, handler) *)
| raise_enter (priority : Z) (h : handler)
| raise_push (priority : Z) (h : handler)
| raise_exit
(* handle_interrupts() *)
| handle_enter
| handle_test
| handle_pop
| handle_call (h : handler)
| handle_exit
(* add_process(process) *)
| add_enter (process : ref)
| add_push (process : ref)
| add_ready (process : ref)
| add_exit
(* schedule_next_process() *)
| schedule_enter
| schedule_test
| schedule_pop
| schedule_running
| schedule_print
| schedule_none
| schedule_exit
| schedule_raise
| schedule_return
(* terminate_current_process() *)
| terminate_test
| terminate_state
| terminate_print
| terminate_clear
| terminate_return.

(** The calls a thread can make. *)
Inductive call :=
| allocate_memory (process_id : string) (size : Z)
| deallocate_memory (process_id : string)
| raise_interrupt (priority : Z) (h : handler)
| handle_interrupts
| add_process (process : ref)
| schedule_next_process
| terminate_current_process.

(** The first program point of a call. *)
Definition entry (c : call) : pc :=
  match c with
  | allocate_memory process_id size => allocate_test process_id size
  | deallocate_memory process_id => deallocate_test process_id
  | raise_interrupt priority h => raise_enter priority h
  | handle_interrupts => handle_enter
  | add_process process => add_enter process
  | schedule_next_process => schedule_enter
  | terminate_current_process => terminate_test
  end.

(** The [with] block a program point is inside of. *)
Definition in_with (p : pc) : option lock :=
  match p with
  | raise_push _ _ | raise_exit => Some interrupt_lock
  | handle_test | handle_pop | handle_call _ | handle_exit => Some interrupt_lock
  | add_push _ | add_ready _ | add_exit => Some scheduler_lock
  | schedule_test | schedule_pop | schedule_running | schedule_print
  | schedule_none | schedule_exit | schedule_raise => Some scheduler_lock
  | _ => None
  end.

(** The component whose state the statement at a program point reads or
    writes; a statement after the first of an operation is in the middle
    of it. *)
Definition touches (p : pc) : option component :=
  match p with
  | allocate_test _ _ | allocate_record _ _ | allocate_add _ => Some Memory
  | deallocate_test _ | deallocate_subtract _ | deallocate_delete _ => Some Memory
  | raise_push _ _ => Some Interrupts
  | handle_test | handle_pop => Some Interrupts
  | add_push _ | add_ready _ => Some Scheduler
  | schedule_test | schedule_pop | schedule_running | schedule_print
  | schedule_none | schedule_return => Some Scheduler
  | terminate_test | terminate_state | terminate_print | terminate_clear
  | terminate_return => Some Scheduler
  | _ => None
  end.

(** The program points of [terminate_current_process]. *)
Definition in_terminate (p : pc) : bool :=
  match p with
  | terminate_test | terminate_state | terminate_print | terminate_clear
  | terminate_return => true
  | _ => false
  end.

(** What a thread at a [return self.running_process] gives back to its
    caller when it runs that statement in the shared state [s]. *)
Definition returns (p : pc) (s : shared) : option (option ref) :=
  match p with
  | schedule_return | terminate_return =>
      Some (PS.running_process (Kernel.process_scheduler (kernel s)))
  | _ => None
  end.

(** One statement of thread [t]: from a program point and a shared state
    to the next program point and shared state.  Where heapq raises, the
    [with] block is left through its exit and the list is in a state the
    model does not describe. *)
Inductive exec (t : nat) : pc → shared → pc → shared → Prop :=
(* if self.used_memory + size > self.total_memory: return False *)
| exec_allocate_full process_id size s :
    MM.used_memory (Kernel.memory_manager (kernel s)) + size >
      MM.total_memory (Kernel.memory_manager (kernel s)) →
    exec t (allocate_test process_id size) s Idle s
| exec_allocate_fits process_id size s :
    ¬ MM.used_memory (Kernel.memory_manager (kernel s)) + size >
        MM.total_memory (Kernel.memory_manager (kernel s)) →
    exec t (allocate_test process_id size) s (allocate_record process_id size) s
(* self.memory_map[process_id] = size *)
| exec_allocate_record process_id size s :
    let m := Kernel.memory_manager (kernel s) in
    exec t (allocate_record process_id size) s (allocate_add size)
      (set_kernel
         (set_memory (MM.mk (MM.total_memory m) (MM.used_memory m)
                            (<[process_id := size]> (MM.memory_map m)))
                     (kernel s)) s)
(* self.used_memory += size; return True *)
| exec_allocate_add size s :
    let m := Kernel.memory_manager (kernel s) in
    exec t (allocate_add size) s Idle
      (set_kernel
         (set_memory (MM.mk (MM.total_memory m) (MM.used_memory m + size)
                            (MM.memory_map m))
                     (kernel s)) s)
(* if process_id in self.memory_map: *)
| exec_deallocate_absent process_id s :
    MM.memory_map (Kernel.memory_manager (kernel s)) !! process_id = None →
    exec t (deallocate_test process_id) s Idle s
| exec_deallocate_present process_id s :
    is_Some (MM.memory_map (Kernel.memory_manager (kernel s)) !! process_id) →
    exec t (deallocate_test process_id) s (deallocate_subtract process_id) s
(* self.used_memory -= self.memory_map[process_id] *)
| exec_deallocate_subtract process_id size s :
    let m := Kernel.memory_manager (kernel s) in
    MM.memory_map m !! process_id = Some size →
    exec t (deallocate_subtract process_id) s (deallocate_delete process_id)
      (set_kernel
         (set_memory (MM.mk (MM.total_memory m) (MM.used_memory m - size)
                            (MM.memory_map m))
                     (kernel s)) s)
| exec_deallocate_subtract_KeyError process_id s :
    MM.memory_map (Kernel.memory_manager (kernel s)) !! process_id = None →
    exec t (deallocate_subtract process_id) s Idle s
(* del self.memory_map[process_id] *)
| exec_deallocate_delete process_id s :
    let m := Kernel.memory_manager (kernel s) in
    is_Some (MM.memory_map m !! process_id) →
    exec t (deallocate_delete process_id) s Idle
      (set_kernel
         (set_memory (MM.mk (MM.total_memory m) (MM.used_memory m)
                            (delete process_id (MM.memory_map m)))
                     (kernel s)) s)
| exec_deallocate_delete_KeyError process_id s :
    MM.memory_map (Kernel.memory_manager (kernel s)) !! process_id = None →
    exec t (deallocate_delete process_id) s Idle s
(* with self.interrupt_lock: heapq.heappush(self.interrupt_queue, ...) *)
| exec_raise_enter priority h s :
    holder s interrupt_lock = None →
    exec t (raise_enter priority h) s (raise_push priority h)
      (set_holder interrupt_lock (Some t) s)
| exec_raise_push priority h queue s :
    heapq.heappush IC.tuple_lt
      (IC.interrupt_queue (Kernel.interrupt_controller (kernel s))) (priority, h) =
      Ok queue →
    exec t (raise_push priority h) s raise_exit
      (set_kernel (set_interrupts (IC.mk queue) (kernel s)) s)
| exec_raise_push_error priority h e queue s :
    heapq.heappush IC.tuple_lt
      (IC.interrupt_queue (Kernel.interrupt_controller (kernel s))) (priority, h) =
      Raise e →
    exec t (raise_push priority h) s raise_exit
      (set_kernel (set_interrupts (IC.mk queue) (kernel s)) s)
| exec_raise_exit s :
    exec t raise_exit s Idle (set_holder interrupt_lock None s)
(* with self.interrupt_lock: while self.interrupt_queue: ... *)
| exec_handle_enter s :
    holder s interrupt_lock = None →
    exec t handle_enter s handle_test (set_holder interrupt_lock (Some t) s)
| exec_handle_test_empty s :
    IC.interrupt_queue (Kernel.interrupt_controller (kernel s)) = [] →
    exec t handle_test s handle_exit s
| exec_handle_test_pending s :
    IC.interrupt_queue (Kernel.interrupt_controller (kernel s)) ≠ [] →
    exec t handle_test s handle_pop s
| exec_handle_pop priority h queue s :
    heapq.heappop IC.tuple_lt
      (IC.interrupt_queue (Kernel.interrupt_controller (kernel s))) =
      Ok ((priority, h), queue) →
    exec t handle_pop s (handle_call h)
      (set_kernel (set_interrupts (IC.mk queue) (kernel s)) s)
| exec_handle_pop_error e queue s :
    heapq.heappop IC.tuple_lt
      (IC.interrupt_queue (Kernel.interrupt_controller (kernel s))) = Raise e →
    exec t handle_pop s handle_exit
      (set_kernel (set_interrupts (IC.mk queue) (kernel s)) s)
| exec_handle_call h s :
    exec t (handle_call h) s handle_test s
| exec_handle_exit s :
    exec t handle_exit s Idle (set_holder interrupt_lock None s)
(* with self.scheduler_lock: heappush(...); process.state = 'READY' *)
| exec_add_enter process s :
    holder s scheduler_lock = None →
    exec t (add_enter process) s (add_push process)
      (set_holder scheduler_lock (Some t) s)
| exec_add_push process queue s :
    let p := Kernel.process_scheduler (kernel s) in
    heapq.heappush (Process_lt (Kernel.objects (kernel s))) (PS.ready_queue p) process =
      Ok queue →
    exec t (add_push process) s (add_ready process)
      (set_kernel
         (set_scheduler (Kernel.objects (kernel s))
                        (PS.mk queue (PS.running_process p)) (kernel s)) s)
| exec_add_ready process s :
    exec t (add_ready process) s add_exit
      (set_kernel
         (set_scheduler (alter (set_state "READY") process (Kernel.objects (kernel s)))
                        (Kernel.process_scheduler (kernel s)) (kernel s)) s)
| exec_add_exit s :
    exec t add_exit s Idle (set_holder scheduler_lock None s)
(* with self.scheduler_lock: if self.ready_queue: ... else: ... *)
| exec_schedule_enter s :
    holder s scheduler_lock = None →
    exec t schedule_enter s schedule_test (set_holder scheduler_lock (Some t) s)
| exec_schedule_test_ready s :
    PS.ready_queue (Kernel.process_scheduler (kernel s)) ≠ [] →
    exec t schedule_test s schedule_pop s
| exec_schedule_test_empty s :
    PS.ready_queue (Kernel.process_scheduler (kernel s)) = [] →
    exec t schedule_test s schedule_none s
| exec_schedule_pop process queue s :
    heapq.heappop (Process_lt (Kernel.objects (kernel s)))
      (PS.ready_queue (Kernel.process_scheduler (kernel s))) = Ok (process, queue) →
    exec t schedule_pop s schedule_running
      (set_kernel
         (set_scheduler (Kernel.objects (kernel s))
                        (PS.mk queue (Some process)) (kernel s)) s)
(* self.running_process.state = 'RUNNING' *)
| exec_schedule_running process s :
    PS.running_process (Kernel.process_scheduler (kernel s)) = Some process →
    exec t schedule_running s schedule_print
      (set_kernel
         (set_scheduler (alter (set_state "RUNNING") process (Kernel.objects (kernel s)))
                        (Kernel.process_scheduler (kernel s)) (kernel s)) s)
| exec_schedule_running_None s :
    PS.running_process (Kernel.process_scheduler (kernel s)) = None →
    exec t schedule_running s schedule_raise s
(* print(f"Running process: {self.running_process.name} (PID: ...)") *)
| exec_schedule_print s :
    is_Some (PS.running_process (Kernel.process_scheduler (kernel s))) →
    exec t schedule_print s schedule_exit s
| exec_schedule_print_None s :
    PS.running_process (Kernel.process_scheduler (kernel s)) = None →
    exec t schedule_print s schedule_raise s
(* else: self.running_process = None *)
| exec_schedule_none s :
    exec t schedule_none s schedule_exit
      (set_kernel
         (set_scheduler (Kernel.objects (kernel s))
                        (PS.mk (PS.ready_queue (Kernel.process_scheduler (kernel s))) None)
                        (kernel s)) s)
| exec_schedule_exit s :
    exec t schedule_exit s schedule_return (set_holder scheduler_lock None s)
(* the block is left with an AttributeError, which ends the call *)
| exec_schedule_raise s :
    exec t schedule_raise s Idle (set_holder scheduler_lock None s)
(* return self.running_process *)
| exec_schedule_return s :
    exec t schedule_return s Idle s
(* if self.running_process: ...state = 'TERMINATED'; self.running_process = None *)
| exec_terminate_test_running s :
    is_Some (PS.running_process (Kernel.process_scheduler (kernel s))) →
    exec t terminate_test s terminate_state s
| exec_terminate_test_none s :
    PS.running_process (Kernel.process_scheduler (kernel s)) = None →
    exec t terminate_test s terminate_return s
| exec_terminate_state process s :
    PS.running_process (Kernel.process_scheduler (kernel s)) = Some process →
    exec t terminate_state s terminate_print
      (set_kernel
         (set_scheduler
            (alter (set_state "TERMINATED") process (Kernel.objects (kernel s)))
            (Kernel.process_scheduler (kernel s)) (kernel s)) s)
| exec_terminate_state_None s :
    PS.running_process (Kernel.process_scheduler (kernel s)) = None →
    exec t terminate_state s Idle s
(* print(f"Terminated process: {self.running_process.name}") *)
| exec_terminate_print s :
    is_Some (PS.running_process (Kernel.process_scheduler (kernel s))) →
    exec t terminate_print s terminate_clear s
| exec_terminate_print_None s :
    PS.running_process (Kernel.process_scheduler (kernel s)) = None →
    exec t terminate_print s Idle s
(* self.running_process = None *)
| exec_terminate_clear s :
    exec t terminate_clear s terminate_return
      (set_kernel
         (set_scheduler (Kernel.objects (kernel s))
                        (PS.mk (PS.ready_queue (Kernel.process_scheduler (kernel s))) None)
                        (kernel s)) s)
(* return self.running_process *)
| exec_terminate_return s :
    exec t terminate_return s Idle s.

(** The system: the shared state and the program point of every thread. *)
Record config := mkConfig { state : shared; threads : list pc }.

(** One step: an idle thread makes a call, or a thread runs a statement. *)
Inductive step : config → config → Prop :=
| step_call t c s ths :
    ths !! t = Some Idle →
    step (mkConfig s ths) (mkConfig s (<[t := entry c]> ths))
| step_exec t p s p' s' ths :
    ths !! t = Some p →
    exec t p s p' s' →
    step (mkConfig s ths) (mkConfig s' (<[t := p']> ths)).

(** [n] idle threads on a kernel, no lock held. *)
Definition initial (k : Kernel.t) (n : nat) : config :=
  mkConfig (mkShared k None None) (replicate n Idle).

(** The configurations the system can get to. *)
Definition reachable (k : Kernel.t) (n : nat) (c : config) : Prop :=
  rtc step (initial k n) c.

(** A thread running alone, statement after statement. *)
Definition runs (t : nat) (p : pc) (s : shared) (p' : pc) (s' : shared) : Prop :=
  rtc (λ a b : pc * shared, exec t a.1 a.2 b.1 b.2) (p, s) (p', s').

End Threads.

Module T := Threads.

(** ** Python dicts keyed by strings

    A [dict] keeps its keys in insertion order, which [list(d.keys())] and
    [json.dump] show; it is a list of bindings, one per key.  Assigning to
    a key it holds replaces the value where it stands, assigning to a new
    key appends. *)

Module pydict.
Section pydict.
Context {V : Type}.

(** [d.get(k)]. *)
Fixpoint get (k : string) (d : list (string * V)) : option V :=
  match d with
  | [] => None
  | (k', v) :: d => if decide (k = k') then Some v else get k d
  end.

(** [k in d]. *)
Definition contains (k : string) (d : list (string * V)) : bool :=
  bool_decide (is_Some (get k d)).

(** [d[k] = v]. *)
Fixpoint setitem (k : string) (v : V) (d : list (string * V)) : list (string * V) :=
  match d with
  | [] => [(k, v)]
  | (k', v') :: d =>
      if decide (k = k') then (k, v) :: d else (k', v') :: setitem k v d
  end.

(** [del d[k]], for a key the dict holds. *)
Definition delitem (k : string) (d : list (string * V)) : list (string * V) :=
  filter (λ b, b.1 ≠ k) d.

(** [list(d.keys())]. *)
Definition keys (d : list (string * V)) : list string := d.*1.

End pydict.
End pydict.

(** ** simple_fs.py: FileSystem *)

Module FileSystem.

(** The dict stored for a file: ['content'], ['size'], ['process_id']. *)
Record info := mkInfo {
  content : string;
  size : Z;
  process_id : option string
}.

(** [FileSystemProcess(name, operation)]: a Process of priority 5 with
    three more attributes, of which [result] starts as [None] and is never
    set.  It is never handed to the kernel; [uuid] is the string
    [uuid.uuid4()] gives it. *)
Record FileSystemProcess := mkFileSystemProcess {
  base : Process;
  operation : string;
  completed : bool
}.

Definition FileSystemProcess_init (uuid name operation : string) : FileSystemProcess :=
  {| base := Process_init uuid name 5; operation := operation; completed := false |}.

(** [self.files], and what the file at [storage_path] holds: nothing
    (there is no such file) or the JSON text of a dict of files, kept here
    as the dict that [json.load] reads back from it.  [lock] carries no
    data, and the kernel is passed to the methods that use it. *)
Record t := mk {
  files : list (string * info);
  storage : option (list (string * info))
}.

(** [save_filesystem()]. *)
Definition save_filesystem (self : t) : t :=
  {| files := files self; storage := Some (files self) |}.

(** [load_filesystem()]. *)
Definition load_filesystem (self : t) : t :=
  match storage self with
  | Some saved => {| files := saved; storage := storage self |}
  | None =>
      save_filesystem
        {| files :=
             pydict.setitem "README.txt"
               {| content := "Welcome to SimpleFS!"; size := 20; process_id := None |}
               [];
           storage := storage self |}
  end.

(** [FileSystem(kernel, storage_path)] where the file at [storage_path]
    holds [storage]. *)
Definition init (storage : option (list (string * info))) : t :=
  load_filesystem {| files := []; storage := storage |}.

(** [_create_file_process(filename, content)]; the [context] it sets is
    never read. *)
Definition _create_file_process (uuid filename content : string) : FileSystemProcess :=
  FileSystemProcess_init uuid ("Create file - " +:+ filename) "CREATE".

(** [_remove_file_process(filename)]. *)
Definition _remove_file_process (uuid filename : string) : FileSystemProcess :=
  FileSystemProcess_init uuid ("Remove file - " +:+ filename) "REMOVE".

(** [create_file(filename, content, memory_required)]: the value
    returned, the kernel and the file system afterwards.  [uuid_fs] goes to
    the FileSystemProcess built for its name and priority, [uuid] to the
    Process the kernel creates. *)
Definition create_file (uuid_fs uuid : string) (filename content : string)
    (memory_required : Z) (kernel : Kernel.t) (self : t)
  : M (option string * Kernel.t * t) :=
  if pydict.contains filename (files self) then
    _ ← print ("File " +:+ filename +:+ " already exists.");
    mret (None, kernel, self)
  else
    let process := _create_file_process uuid_fs filename content in
    '(kernel_process, kernel) ←
      Kernel.create_process uuid (name (base process)) (priority (base process))
                            memory_required kernel;
    match kernel_process with
    | Some r =>
        let self :=
          save_filesystem
            {| files :=
                 pydict.setitem filename
                   {| content := content;
                      size := Z.of_nat (String.length content);
                      process_id := Some (pid (Kernel.objects kernel !!! r)) |}
                   (files self);
               storage := storage self |} in
        _ ← print ("File " +:+ filename +:+ " created successfully.");
        mret (Some (pid (Kernel.objects kernel !!! r)), kernel, self)
    | None =>
        _ ← print ("Failed to create file " +:+ filename +:+
                   " - process creation failed.");
        mret (None, kernel, self)
    end.

(** [list_files()]. *)
Definition list_files (self : t) : list string := pydict.keys (files self).

(** [read_file(filename)]. *)
Definition read_file (filename : string) (self : t) : option string :=
  match pydict.get filename (files self) with
  | Some file_info => Some (content file_info)
  | None => None
  end.

(** What [remove_file] returns: [False], or the ['process_id'] of the
    file, a string or [None]. *)
Inductive removed :=
| NotThere
| ProcessId (process_id : option string).

(** [if process_id:] is taken for a string that is not empty. *)
Definition truthy (process_id : option string) : bool :=
  match process_id with
  | Some s => negb (String.eqb s "")
  | None => false
  end.

(** [remove_file(filename)]. *)
Definition remove_file (filename : string) (kernel : Kernel.t) (self : t)
  : M (removed * Kernel.t * t) :=
  match pydict.get filename (files self) with
  | None => mret (NotThere, kernel, self)
  | Some file_info =>
      let files := pydict.delitem filename (files self) in
      let kernel :=
        if truthy (process_id file_info) then
          Kernel.mk (Kernel.objects kernel)
            (MM.deallocate_memory (default "" (process_id file_info))
                                  (Kernel.memory_manager kernel))
            (Kernel.interrupt_controller kernel)
            (Kernel.process_scheduler kernel)
            (Kernel.running kernel)
        else kernel in
      _ ← print ("File " +:+ filename +:+ " removed successfully.");
      mret (ProcessId (process_id file_info), kernel,
            save_filesystem {| files := files; storage := storage self |})
  end.

(** [rename_file(old_name, new_name)]. *)
Definition rename_file (old_name new_name : string) (self : t) : bool * t :=
  match pydict.get old_name (files self) with
  | None => (false, self)
  | Some file_info =>
      if pydict.contains new_name (files self) then (false, self)
      else
        (true,
         save_filesystem
           {| files :=
                pydict.setitem new_name file_info
                  (pydict.delitem old_name (files self));
              storage := storage self |})
  end.

End FileSystem.

Module FS := FileSystem.

(** ** simple_cli.py: the commands that pass their argument on as it is *)

Module FileSysCLI.

(** [do_remove(arg)]. *)
Definition do_remove (arg : string) (kernel : Kernel.t) (filesystem : FS.t)
  : M (Kernel.t * FS.t) :=
  '(result, kernel, filesystem) ← FS.remove_file arg kernel filesystem;
  _ ← match result with
      | FS.ProcessId (Some process_id) =>
          if FS.truthy (Some process_id) then
            print ("[Log] File '" +:+ arg +:+ "' removed with process ID: " +:+ process_id)
          else print ("[Error] File '" +:+ arg +:+ "' not found.")
      | _ => print ("[Error] File '" +:+ arg +:+ "' not found.")
      end;
  mret (kernel, filesystem).

End FileSysCLI.

(** ** Heap order of a list

    [key] is the number the items are ordered by; the comparison [item_lt]
    agrees with it on a list when, between any two items of the list, it
    answers as [<] does on their keys (and so does not raise). *)

Section heap_order_definitions.
Context {A : Type} (item_lt : A → A → result bool) (key : A → Z).

Definition agrees (l : list A) : Prop :=
  ∀ x y, x ∈ l → y ∈ l → item_lt x y = Ok (bool_decide (key x < key y)).

Definition keyat (l : list A) (i : nat) : Z := from_option key 0 (l !! i).

(** Every item is at least its parent. *)
Definition heap_ordered (l : list A) : Prop :=
  ∀ i, (0 < i < length l)%nat → keyat l (heapq.parentpos i) ≤ keyat l i.

(** The order holds on every edge but the one above [pos], and the
    children of [pos] are at least the parent of [pos]: the state of the
    list while the item at [pos] moves up. *)
Definition ordered_but_above (l : list A) (pos : nat) : Prop :=
  (∀ i, (0 < i < length l)%nat → i ≠ pos →
        keyat l (heapq.parentpos i) ≤ keyat l i) ∧
  (∀ c, (0 < pos)%nat → (0 < c < length l)%nat → heapq.parentpos c = pos →
        keyat l (heapq.parentpos pos) ≤ keyat l c).

(** The order holds on every edge that does not touch [pos], and the
    children of [pos] are at least the parent of [pos]: the state of the
    list while the hole at [pos] moves down. *)
Definition ordered_around (l : list A) (pos : nat) : Prop :=
  (∀ i, (0 < i < length l)%nat → i ≠ pos → heapq.parentpos i ≠ pos →
        keyat l (heapq.parentpos i) ≤ keyat l i) ∧
  (∀ c, (0 < pos)%nat → (0 < c < length l)%nat → heapq.parentpos c = pos →
        keyat l (heapq.parentpos pos) ≤ keyat l c).

End heap_order_definitions.

(** ** Vocabulary for the interrupt queue *)

(** No two entries share a priority and differ in their handler: the
    entries [<] can compare without reaching two different functions. *)
Definition comparable (entries : list (Z * handler)) : Prop :=
  ∀ a b, a ∈ entries → b ∈ entries → a.1 = b.1 → a.2 = b.2.

(** Entries in ascending order of priority. *)
Definition ascending (entries : list (Z * handler)) : Prop :=
  StronglySorted (λ a b : Z * handler, a.1 ≤ b.1) entries.

(** What the loop of [handle_interrupts] leaves behind when it calls the
    handlers of [entries] one after the other. *)
Definition calls_in_turn (invoke : handler → IC.outcome)
    (entries : list (Z * handler)) : list event :=
  flat_map (λ e, IC.guarded_call invoke e.2) entries.

(** ** Vocabulary for the ready queue *)

(** The priority of the process a reference stands for. *)
Definition prio (objects : list Process) (process : ref) : Z :=
  priority (objects !!! process).

(** The states of the store and the scheduler that the program can reach:
    Process objects are constructed, and the scheduler's three methods are
    called on them, in any order. *)
Inductive reachable : list Process → PS.t → Prop :=
| reachable_init :
    reachable [] PS.init
| reachable_new objects self uuid name priority :
    reachable objects self →
    reachable (objects ++ [Process_init uuid name priority]) self
| reachable_add objects self process objects' self' :
    reachable objects self →
    (process < length objects)%nat →
    PS.add_process process objects self = Ok (objects', self') →
    reachable objects' self'
| reachable_schedule objects self tr objects' self' r :
    reachable objects self →
    PS.schedule_next_process objects self = mkM tr (Ok (objects', self', r)) →
    reachable objects' self'
| reachable_terminate objects self tr objects' self' r :
    reachable objects self →
    PS.terminate_current_process objects self = mkM tr (Ok (objects', self', r)) →
    reachable objects' self'.

(** What every reachable state satisfies: the ready queue is a heap by
    priority, and holds references to objects of the store. *)
Definition ready_heap (objects : list Process) (self : PS.t) : Prop :=
  heap_ordered (prio objects) (PS.ready_queue self) ∧
  ∀ r, r ∈ PS.ready_queue self → (r < length objects)%nat.

(** New processes of the given priorities, added in order. *)
Fixpoint add_new (priorities : list Z) (objects : list Process) (self : PS.t)
  : result (list Process * PS.t) :=
  match priorities with
  | [] => Ok (objects, self)
  | priority :: priorities =>
      '(objects, self) ←
        PS.add_process (length objects) (objects ++ [Process_init "" "" priority]) self;
      add_new priorities objects self
  end.

(** The priorities of the processes that [n] calls of
    [schedule_next_process] return, in order. *)
Fixpoint selections (n : nat) (objects : list Process) (self : PS.t)
  : M (list (option Z)) :=
  match n with
  | O => mret []
  | S n =>
      '(objects, self, r) ← PS.schedule_next_process objects self;
      rest ← selections n objects self;
      mret (option_map (prio objects) r :: rest)
  end.

(** ** Vocabulary for threads *)

(** A thread inside a [with] block holds the lock of the block. *)
Definition lock_inv (c : T.config) : Prop :=
  ∀ t p l, T.threads c !! t = Some p → T.in_with p = Some l →
           T.holder (T.state c) l = Some t.

(** ** Vocabulary for the loops and for sequences of calls *)

(** The two lines a turn of the loop prints for the process it runs. *)
Definition turn_lines (objects : list Process) (process : ref) : list event :=
  [Printed ("Running process: " +:+ name (objects !!! process) +:+
            " (PID: " +:+ pid (objects !!! process) +:+ ")");
   Printed ("Terminated process: " +:+ name (objects !!! process))].

(** What the kernel's clients and its two loops do to it, one at a time. *)
Inductive kernel_call :=
| call_create_process (uuid name : string) (priority memory_required : Z)
| call_scheduler_turn
| call_interrupt_turn.

Definition kernel_step (invoke : handler → IC.outcome) (c : kernel_call)
    (self : Kernel.t) : M Kernel.t :=
  match c with
  | call_create_process uuid name priority memory_required =>
      '(_, self) ← Kernel.create_process uuid name priority memory_required self;
      mret self
  | call_scheduler_turn => Kernel._scheduler_loop 1 self
  | call_interrupt_turn => Kernel._interrupt_loop_body invoke self
  end.

Fixpoint kernel_run (invoke : handler → IC.outcome) (cs : list kernel_call)
    (self : Kernel.t) : M Kernel.t :=
  match cs with
  | [] => mret self
  | c :: cs => self ← kernel_step invoke c self; kernel_run invoke cs self
  end.

Definition nonneg_request (c : kernel_call) : Prop :=
  match c with
  | call_create_process _ _ _ memory_required => 0 ≤ memory_required
  | _ => True
  end.

(** Calls on a file system and its kernel, one after the other. *)
Inductive fs_call :=
| call_create_file (uuid_fs uuid filename content : string) (memory_required : Z)
| call_remove_file (filename : string)
| call_rename_file (old_name new_name : string).

Definition fs_step (c : fs_call) (st : Kernel.t * FS.t) : M (Kernel.t * FS.t) :=
  match c with
  | call_create_file uuid_fs uuid filename content memory_required =>
      '(_, kernel, self) ←
        FS.create_file uuid_fs uuid filename content memory_required st.1 st.2;
      mret (kernel, self)
  | call_remove_file filename =>
      '(_, kernel, self) ← FS.remove_file filename st.1 st.2;
      mret (kernel, self)
  | call_rename_file old_name new_name =>
      mret (st.1, (FS.rename_file old_name new_name st.2).2)
  end.

Fixpoint fs_run (cs : list fs_call) (st : Kernel.t * FS.t) : M (Kernel.t * FS.t) :=
  match cs with
  | [] => mret st
  | c :: cs => st ← fs_step c st; fs_run cs st
  end.

(** ** Facts about the memory manager *)

Section memory_facts.
Implicit Types (self : MM.t) (m : gmap string Z) (pid : string) (size : Z).

Lemma sum_values_empty : MM.sum_values ∅ = 0.
Proof. unfold MM.sum_values. by rewrite map_fold_empty. Qed.

Lemma sum_values_insert m pid size :
  m !! pid = None → MM.sum_values (<[pid := size]> m) = size + MM.sum_values m.
Proof.
  intros Hnone. unfold MM.sum_values.
  rewrite map_fold_insert_L; [done | intros; lia | done].
Qed.

Lemma sum_values_delete m pid size :
  m !! pid = Some size → MM.sum_values m = size + MM.sum_values (delete pid m).
Proof.
  intros Hsome. unfold MM.sum_values.
  rewrite (map_fold_delete_L _ _ pid size m); [done | intros; lia | done].
Qed.

Lemma allocate_memory_true pid size self :
  (MM.allocate_memory pid size self).1 = true ↔
  MM.used_memory self + size ≤ MM.total_memory self.
Proof.
  unfold MM.allocate_memory. case_bool_decide; simpl; split; intros; try done; lia.
Qed.

Lemma allocate_memory_success pid size self :
  MM.used_memory self + size ≤ MM.total_memory self →
  MM.allocate_memory pid size self =
    (true, MM.mk (MM.total_memory self) (MM.used_memory self + size)
                 (<[pid := size]> (MM.memory_map self))).
Proof. intros. unfold MM.allocate_memory. case_bool_decide; [lia | done]. Qed.

Lemma allocate_memory_failure pid size self :
  ¬ MM.used_memory self + size ≤ MM.total_memory self →
  MM.allocate_memory pid size self = (false, self).
Proof. intros. unfold MM.allocate_memory. case_bool_decide; [done | lia]. Qed.

Lemma allocate_memory_bound pid size self :
  MM.used_memory self ≤ MM.total_memory self →
  MM.used_memory (MM.allocate_memory pid size self).2 ≤
    MM.total_memory (MM.allocate_memory pid size self).2.
Proof. unfold MM.allocate_memory. case_bool_decide; simpl; lia. Qed.


Lemma step_bound self c :
  MM.nonneg_size c →
  map_Forall (λ _ size, 0 ≤ size) (MM.memory_map self) →
  MM.used_memory self ≤ MM.total_memory self →
  map_Forall (λ _ size, 0 ≤ size) (MM.memory_map (MM.step self c)) ∧
  MM.used_memory (MM.step self c) ≤ MM.total_memory (MM.step self c).
Proof.
  intros Hc Hmap Hle. destruct c as [pid size | pid]; simpl in *.
  - unfold MM.allocate_memory. case_bool_decide; simpl; [done|].
    split; [|lia]. by apply map_Forall_insert_2.
  - unfold MM.deallocate_memory.
    destruct (MM.memory_map self !! pid) as [size|] eqn:Hpid; simpl; [|done].
    split; [by apply map_Forall_delete|].
    specialize (Hmap pid size Hpid). simpl in Hmap. lia.
Qed.

Lemma step_sum self c :
  match c with
  | MM.Allocate pid _ => MM.memory_map self !! pid = None
  | MM.Deallocate _ => True
  end →
  MM.used_memory self = MM.sum_values (MM.memory_map self) →
  MM.used_memory (MM.step self c) = MM.sum_values (MM.memory_map (MM.step self c)).
Proof.
  intros Hfresh Hsum. destruct c as [pid size | pid]; simpl.
  - unfold MM.allocate_memory. case_bool_decide; simpl; [done|].
    rewrite sum_values_insert by done. lia.
  - unfold MM.deallocate_memory.
    destruct (MM.memory_map self !! pid) as [size|] eqn:Hpid; simpl; [|done].
    rewrite (sum_values_delete _ _ _ Hpid) in Hsum. lia.
Qed.

(** With sizes that are not negative, [used] stays within [total] whatever
    the ids are. *)
Lemma history_bound self cs :
  Forall MM.nonneg_size cs →
  map_Forall (λ _ size, 0 ≤ size) (MM.memory_map self) →
  MM.used_memory self ≤ MM.total_memory self →
  Forall (λ s, MM.used_memory s ≤ MM.total_memory s) (MM.history self cs).
Proof.
  intros Hcs. revert self. induction Hcs as [|c cs Hc _ IH]; intros self Hmap Hle.
  - constructor.
  - destruct (step_bound self c Hc Hmap Hle) as [Hmap' Hle']. simpl.
    constructor; [done|]. by apply IH.
Qed.

(** With ids that hold no reservation when they are allocated, [used] is
    the sum of the recorded sizes whatever their signs are. *)
Lemma history_sum self cs :
  MM.fresh_ids self cs →
  MM.used_memory self = MM.sum_values (MM.memory_map self) →
  Forall (λ s, MM.used_memory s = MM.sum_values (MM.memory_map s)) (MM.history self cs).
Proof.
  revert self. induction cs as [|c cs IH]; intros self Hfresh Hsum; simpl.
  - constructor.
  - destruct Hfresh as [Hc Hfresh].
    pose proof (step_sum self c Hc Hsum) as Hsum'.
    constructor; [done|]. by apply IH.
Qed.

Lemma history_allocate_bound self cs :
  Forall MM.is_allocate cs →
  MM.used_memory self ≤ MM.total_memory self →
  Forall (λ s, MM.used_memory s ≤ MM.total_memory s) (MM.history self cs).
Proof.
  intros Hcs. revert self. induction Hcs as [|c cs Hc _ IH]; intros self Hle; simpl.
  - constructor.
  - destruct c as [pid size|]; [|done]. simpl.
    pose proof (allocate_memory_bound pid size self Hle).
    constructor; [done|]. by apply IH.
Qed.

End memory_facts.

(** ** The claims about the memory manager *)

(** C2, as the claim states it, fails: allocating twice for one id records
    the size once and counts it twice, so [used] is 200 and the sum 100. *)
Lemma C2_counterexample :
  ¬ Forall MM.invariant
      (MM.history (MM.init 1024) [MM.Allocate "p" 100; MM.Allocate "p" 100]).
Proof.
  intros H. apply Forall_cons in H as [_ H]. apply Forall_cons in H as [[Hsum _] _].
  vm_compute in Hsum. discriminate.
Qed.

(** A negative size breaks the bound as well, with ids that are all new:
    [used] ends at 15 in a manager of capacity 10. *)
Lemma negative_size_breaks_bound :
  let self := MM.run (MM.init 10)
                [MM.Allocate "a" (-5); MM.Allocate "b" 15; MM.Deallocate "a"] in
  MM.used_memory self = 15 ∧ MM.total_memory self = 10.
Proof. vm_compute. done. Qed.

(** C2 (amended): from a new manager of non-negative capacity, over every
    sequence of allocate and deallocate calls whose sizes are not negative
    and whose allocations are each for an id holding no reservation at that
    moment, [used == sum(allocation.values())] and [used <= total] hold
    after every call. *)
Theorem C2_invariant_after_every_call (total : Z) (cs : list MM.call) :
  0 ≤ total →
  Forall MM.nonneg_size cs →
  MM.fresh_ids (MM.init total) cs →
  Forall MM.invariant (MM.history (MM.init total) cs).
Proof.
  intros Htotal Hsizes Hfresh.
  pose proof (history_bound (MM.init total) cs Hsizes) as Hb.
  pose proof (history_sum (MM.init total) cs Hfresh) as Hs.
  simpl in Hb, Hs. rewrite sum_values_empty in Hs.
  specialize (Hb (map_Forall_empty _) Htotal). specialize (Hs eq_refl).
  rewrite Forall_forall in Hb, Hs. apply Forall_forall. intros s Hin.
  split; [by apply Hs | by apply Hb].
Qed.

Lemma C2_invariant_after_every_call_witness :
  Forall MM.invariant
    (MM.history (MM.init 1024)
       [MM.Allocate "a" 100; MM.Allocate "b" 24; MM.Deallocate "a";
        MM.Allocate "a" 1000; MM.Allocate "c" 1]).
Proof.
  apply (C2_invariant_after_every_call 1024).
  - lia.
  - repeat constructor; simpl; lia.
  - vm_compute. repeat split; reflexivity.
Defined.

(** C3: [allocate_memory] succeeds exactly when [used + size <= total]; on
    success it records the mapping and adds exactly [size] to [used]; on
    failure it returns [False] and leaves the manager as it was; and over
    any sequence of allocate calls [used] stays within [total]. *)
Theorem C3_allocate_all_or_nothing (pid : string) (size : Z) (self : MM.t) :
  ((MM.allocate_memory pid size self).1 = true ↔
     MM.used_memory self + size ≤ MM.total_memory self) ∧
  (MM.used_memory self + size ≤ MM.total_memory self →
     MM.allocate_memory pid size self =
       (true, MM.mk (MM.total_memory self) (MM.used_memory self + size)
                    (<[pid := size]> (MM.memory_map self)))) ∧
  (¬ MM.used_memory self + size ≤ MM.total_memory self →
     MM.allocate_memory pid size self = (false, self)) ∧
  (∀ cs : list MM.call,
     Forall MM.is_allocate cs →
     MM.used_memory self ≤ MM.total_memory self →
     Forall (λ s, MM.used_memory s ≤ MM.total_memory s) (MM.history self cs)).
Proof.
  split; [apply allocate_memory_true|].
  split; [apply allocate_memory_success|].
  split; [apply allocate_memory_failure|].
  intros cs. apply history_allocate_bound.
Qed.

(** C10: [allocate_memory] does not look at the sign of [size]: whenever
    [used + size <= total] it returns [True] and adds [size] to [used]; a
    negative [size] then makes [used] strictly smaller, and on a new
    manager it leaves [get_free_memory()] above [total]. *)
Theorem C10_no_size_validation :
  (∀ pid size self,
     MM.used_memory self + size ≤ MM.total_memory self →
     (MM.allocate_memory pid size self).1 = true ∧
     MM.used_memory (MM.allocate_memory pid size self).2 = MM.used_memory self + size) ∧
  (∀ pid size self,
     size < 0 →
     MM.used_memory self + size ≤ MM.total_memory self →
     (MM.allocate_memory pid size self).1 = true ∧
     MM.used_memory (MM.allocate_memory pid size self).2 < MM.used_memory self) ∧
  (∀ pid size total,
     size < 0 → 0 ≤ total →
     (MM.allocate_memory pid size (MM.init total)).1 = true ∧
     MM.get_free_memory (MM.allocate_memory pid size (MM.init total)).2 >
       MM.total_memory (MM.allocate_memory pid size (MM.init total)).2).
Proof.
  split; [|split].
  - intros pid size self Hle. rewrite allocate_memory_success by done. done.
  - intros pid size self Hneg Hle. rewrite allocate_memory_success by done.
    simpl. split; [done | lia].
  - intros pid size total Hneg Htotal.
    rewrite allocate_memory_success by (simpl; lia).
    unfold MM.get_free_memory. simpl. split; [done | lia].
Qed.

(** ** Facts about computations that print *)

Lemma M_bind_Ok_inv {A B} (m : M A) (f : A → M B) (tr : list event) (b : B) :
  m ≫= f = mkM tr (Ok b) →
  ∃ a tr1 tr2, m = mkM tr1 (Ok a) ∧ f a = mkM tr2 (Ok b) ∧ tr = tr1 ++ tr2.
Proof.
  destruct m as [tr1 [a|e]]; unfold mbind, M_bind; simpl; [|done].
  destruct (f a) as [tr2 r] eqn:Hf. simpl. intros [= <- ->]. by exists a, tr1, tr2.
Qed.

(** ** The scheduling loop and the memory of the process it ran *)

(** [terminate_current_process] always leaves the running slot empty. *)
Lemma terminate_current_process_clears objects self :
  ∃ tr objects',
    PS.terminate_current_process objects self =
      mkM tr (Ok (objects', PS.mk (PS.ready_queue self) None, None)).
Proof.
  unfold PS.terminate_current_process. destruct self as [queue [process|]]; simpl.
  - eexists _, _. reflexivity.
  - eexists _, _. reflexivity.
Qed.

(** So the conditional after it never runs its branch: a turn of the
    scheduling loop leaves the memory manager as it found it. *)
Lemma _scheduler_loop_body_memory self tr self' :
  Kernel._scheduler_loop_body self = mkM tr (Ok self') →
  Kernel.memory_manager self' = Kernel.memory_manager self.
Proof.
  unfold Kernel._scheduler_loop_body. intros Hbody.
  apply M_bind_Ok_inv in Hbody as ([[objects1 scheduler1] r1] & tr1 & tr2 & _ & Hbody & _).
  apply M_bind_Ok_inv in Hbody as ([[objects2 scheduler2] r2] & tr3 & tr4 & Hterm & Hbody & _).
  destruct (terminate_current_process_clears objects1 scheduler1) as (tr5 & objects3 & Hclear).
  rewrite Hclear in Hterm. injection Hterm as _ _ <- _.
  simpl in Hbody. by injection Hbody as _ <-.
Qed.

Lemma _scheduler_loop_memory slices self tr self' :
  Kernel._scheduler_loop slices self = mkM tr (Ok self') →
  Kernel.memory_manager self' = Kernel.memory_manager self.
Proof.
  revert self tr. induction slices as [|slices IH]; intros self tr; simpl.
  - by intros [= _ <-].
  - destruct (Kernel.running self); [|by intros [= _ <-]].
    intros Hloop. apply M_bind_Ok_inv in Hloop as (mid & tr1 & tr2 & Hbody & Hrest & _).
    apply IH in Hrest. apply _scheduler_loop_body_memory in Hbody. congruence.
Qed.

(** C1, evaluated on the end-to-end scenario: the kernel is started,
    [create_process("job", 0, 100)] succeeds and leaves 924 units free; one
    turn of the scheduling loop later the process is TERMINATED and the
    free memory is still 924, not 1024, its reservation still recorded:
    [terminate_current_process] has emptied the running slot before the
    loop looks in it for the process whose memory to free.  No number of
    turns, from any kernel, changes the memory manager. *)
Theorem C1_memory_stays_reserved :
  (∃ process k1 tr k2,
     Kernel.create_process "uuid-1" "job" 0 100 (Kernel.start Kernel.init) =
       mkM [] (Ok (Some process, k1)) ∧
     MM.get_free_memory (Kernel.memory_manager k1) = 924 ∧
     Kernel._scheduler_loop 1 k1 = mkM tr (Ok k2) ∧
     state (Kernel.objects k2 !!! process) = "TERMINATED" ∧
     MM.get_free_memory (Kernel.memory_manager k2) = 924 ∧
     MM.memory_map (Kernel.memory_manager k2) !! "uuid-1" = Some 100) ∧
  (∀ slices self tr self',
     Kernel._scheduler_loop slices self = mkM tr (Ok self') →
     Kernel.memory_manager self' = Kernel.memory_manager self).
Proof.
  split; [|apply _scheduler_loop_memory].
  eexists _, _, _, _. split; [vm_compute; reflexivity|].
  split; [reflexivity|]. split; [vm_compute; reflexivity|].
  split; [reflexivity|]. split; reflexivity.
Qed.

(** ** Facts about heap order

    What [heappush] and [heappop] keep of the order of a list, for any
    comparison and the key it agrees with. *)

Section heap_order.
Context {A : Type} (item_lt : A → A → result bool) (key : A → Z).
#[local] Abbreviation agrees := (agrees item_lt key).
#[local] Abbreviation keyat := (keyat key).
#[local] Abbreviation heap_ordered := (heap_ordered key).
#[local] Abbreviation ordered_but_above := (ordered_but_above key).
#[local] Abbreviation ordered_around := (ordered_around key).

Lemma keyat_lookup (l : list A) i x : l !! i = Some x → keyat l i = key x.
Proof. unfold keyat. by intros ->. Qed.

Lemma keyat_insert (l : list A) i j x :
  (j < length l)%nat →
  keyat (<[j := x]> l) i = if decide (i = j) then key x else keyat l i.
Proof.
  intros Hj. unfold keyat. destruct (decide (i = j)) as [->|Hne].
  - by rewrite list_lookup_insert_eq.
  - by rewrite list_lookup_insert_ne.
Qed.

Lemma agrees_perm (l l' : list A) : l ≡ₚ l' → agrees l → agrees l'.
Proof.
  intros Hp Hl x y Hx Hy. apply Hl; by rewrite Hp.
Qed.

Lemma agrees_cons (l : list A) x : agrees (x :: l) → agrees l.
Proof. intros Hl a b Ha Hb. apply Hl; by constructor. Qed.

(** Writing [x] over [y] trades one for the other. *)
Lemma insert_trades (l : list A) i x y :
  l !! i = Some y → x :: l ≡ₚ y :: <[i := x]> l.
Proof.
  revert i. induction l as [|a l IH]; intros [|i] Hi; simplify_eq/=.
  - apply perm_swap.
  - rewrite (perm_swap a y). rewrite <- (IH i Hi). apply perm_swap.
Qed.

(** Exchanging two items of a list permutes it. *)
Lemma insert_swap_perm (l : list A) i j x y :
  l !! i = Some x → l !! j = Some y →
  <[i := y]> (<[j := x]> l) ≡ₚ l.
Proof.
  intros Hi Hj. destruct (decide (i = j)) as [->|Hne].
  - simplify_eq. rewrite list_insert_insert_eq. by rewrite list_insert_id.
  - apply (Permutation_cons_inv (a := x)).
    rewrite (insert_trades l j x y Hj).
    rewrite (insert_trades (<[j := x]> l) i y x); [done|].
    by rewrite list_lookup_insert_ne.
Qed.

(** In a heap-ordered list the first item is a least one. *)
Lemma heap_ordered_root (l : list A) i :
  heap_ordered l → (i < length l)%nat → keyat l 0 ≤ keyat l i.
Proof.
  intros Hl. induction (lt_wf i) as [i _ IH]. intros Hi.
  destruct (decide (i = 0)%nat) as [->|Hne]; [done|].
  pose proof (parentpos_lt i ltac:(lia)) as Hp.
  etrans; [apply IH; [done | lia]|]. apply Hl. lia.
Qed.

Lemma heap_ordered_root_least (l : list A) x y :
  heap_ordered l → l !! 0%nat = Some x → y ∈ l → key x ≤ key y.
Proof.
  intros Hl Hx [i Hi]%list_elem_of_lookup.
  rewrite <- (keyat_lookup l 0 x Hx), <- (keyat_lookup l i y Hi).
  apply heap_ordered_root; [done|]. by eapply lookup_lt_Some.
Qed.

(** Case analysis on the positions compared by [decide], with the
    equations between parents rewritten everywhere. *)
Ltac order_cases :=
  repeat case_decide;
  repeat match goal with
         | H : heapq.parentpos _ = _ |- _ => rewrite H in *
         | H : ?i = _ |- _ => is_var i; subst i
         | H : _ = ?i |- _ => is_var i; subst i
         end.

(** [_siftdown] from the root: the item at [pos] moves up past every
    parent that is larger.  [V] is the list the loop stands for, with the
    item written at [pos]. *)
Lemma _siftdown_loop_spec (newitem : A) (pos : nat) (heap V : list A) :
  V = <[pos := newitem]> heap →
  (pos < length heap)%nat →
  agrees V →
  ∃ heap',
    heapq._siftdown_loop item_lt heap newitem 0 pos = Ok heap' ∧
    heap' ≡ₚ V ∧
    (ordered_but_above V pos → heap_ordered heap').
Proof.
  revert heap V. induction (lt_wf pos) as [pos _ IH]. intros heap V HV Hpos Hagree.
  assert (length V = length heap) as HlenV by (by rewrite HV, length_insert).
  assert (V !! pos = Some newitem) as HVpos
    by (by rewrite HV, list_lookup_insert_eq).
  rewrite _siftdown_loop_unfold. destruct (decide (0 < pos)%nat) as [Hlt|Hge].
  - pose proof (parentpos_lt pos Hlt) as Hpp.
    destruct (lookup_lt_is_Some_2 heap (heapq.parentpos pos)) as [parent Hparent]; [lia|].
    assert (V !! heapq.parentpos pos = Some parent) as HVpp
      by (rewrite HV, list_lookup_insert_ne by lia; done).
    assert (<[pos := parent]> heap = <[pos := parent]> V) as Hheap1
      by (by rewrite HV, list_insert_insert_eq).
    pose proof (insert_swap_perm V _ _ _ _ HVpp HVpos) as Hswap.
    unfold getitem. rewrite Hparent. rsimpl.
    rewrite (Hagree newitem parent) by (eapply list_elem_of_lookup_2; done). rsimpl.
    case_bool_decide as Hcmp.
    + destruct (IH (heapq.parentpos pos) Hpp (<[pos := parent]> heap)
                  (<[heapq.parentpos pos := newitem]> (<[pos := parent]> heap)))
        as (heap' & Hrun & Hperm & Hord).
      * done.
      * rewrite length_insert. lia.
      * rewrite Hheap1. eapply agrees_perm; [|exact Hagree]. by symmetry.
      * exists heap'. split; [done|]. rewrite Hheap1 in Hperm, Hord.
        split; [by rewrite Hperm|].
        intros [Hedges Hgrand]. apply Hord.
        rewrite <- (keyat_lookup V _ _ HVpos) in Hcmp.
        rewrite <- (keyat_lookup V _ _ HVpp) in Hcmp.
        pose proof (parentpos_spec pos Hlt) as Hsp.
        clear HV Hheap1 Hperm Hord Hswap Hagree Hrun IH.
        split.
        { intros i Hi Hne. rewrite !length_insert in Hi.
          rewrite !keyat_insert by (rewrite ?length_insert; lia).
          rewrite <- (keyat_lookup V _ _ HVpos), <- (keyat_lookup V _ _ HVpp).
          pose proof (parentpos_spec i ltac:(lia)) as Hsi.
          pose proof (Hedges i) as E1. pose proof (Hgrand i) as G1.
          order_cases; lia. }
        { intros c Hpp0 Hc Hpc. rewrite !length_insert in Hc.
          rewrite !keyat_insert by (rewrite ?length_insert; lia).
          rewrite <- (keyat_lookup V _ _ HVpp).
          pose proof (parentpos_spec c ltac:(lia)) as Hsc.
          pose proof (parentpos_spec _ Hpp0) as Hspp.
          pose proof (Hedges (heapq.parentpos pos)) as E1.
          pose proof (Hedges c) as E2.
          order_cases; lia. }
    + exists V. rewrite <- HV. split; [done|]. split; [done|].
      intros [Hedges Hgrand] i Hi. destruct (decide (i = pos)) as [->|Hne].
      * rewrite (keyat_lookup V _ _ HVpos), (keyat_lookup V _ _ HVpp). lia.
      * by apply Hedges.
  - exists V. rewrite <- HV. split; [done|]. split; [done|].
    intros [Hedges Hgrand] i Hi. apply Hedges; lia.
Qed.

(** The child [_siftup] picks is in range and is a least child. *)
Lemma right_child_wins_spec (newitem : A) (pos : nat) (heap V : list A) :
  V = <[pos := newitem]> heap →
  agrees V →
  (2 * pos + 1 < length heap)%nat →
  ∃ b : bool,
    heapq.right_child_wins item_lt heap (length heap) (2 * pos + 1) = Ok b ∧
    ((if b then 2 * pos + 2 else 2 * pos + 1) < length heap)%nat ∧
    (∀ s, (0 < s < length heap)%nat → heapq.parentpos s = pos →
          keyat V (if b then 2 * pos + 2 else 2 * pos + 1)%nat ≤ keyat V s).
Proof.
  intros HV Hagree Hchild. unfold heapq.right_child_wins.
  assert (∀ i, i ≠ pos → V !! i = heap !! i) as Hsame
    by (intros i Hi; by rewrite HV, list_lookup_insert_ne).
  destruct (decide (2 * pos + 1 + 1 < length heap)%nat) as [Hright|Hright].
  - destruct (lookup_lt_is_Some_2 heap (2 * pos + 1)) as [l Hl]; [lia|].
    destruct (lookup_lt_is_Some_2 heap (2 * pos + 1 + 1)) as [r Hr]; [lia|].
    unfold getitem. rewrite Hl, Hr. rsimpl.
    assert (V !! (2 * pos + 1)%nat = Some l) as HVl by (rewrite Hsame; [done | lia]).
    assert (V !! (2 * pos + 2)%nat = Some r) as HVr.
    { rewrite Hsame by lia. by replace (2 * pos + 2)%nat with (2 * pos + 1 + 1)%nat by lia. }
    rewrite (Hagree l r) by (eapply list_elem_of_lookup_2; done). rsimpl.
    eexists. split; [done|]. case_bool_decide as Hcmp; cbn [negb].
    + split; [lia|]. intros s Hs Hps. pose proof (parentpos_spec s ltac:(lia)) as Hss.
      rewrite (keyat_lookup V _ _ HVl).
      destruct (decide (s = 2 * pos + 1)%nat) as [->|Hne].
      * rewrite (keyat_lookup V _ _ HVl). lia.
      * replace s with (2 * pos + 2)%nat by lia. rewrite (keyat_lookup V _ _ HVr). lia.
    + split; [lia|]. intros s Hs Hps. pose proof (parentpos_spec s ltac:(lia)) as Hss.
      rewrite (keyat_lookup V _ _ HVr).
      destruct (decide (s = 2 * pos + 1)%nat) as [->|Hne].
      * rewrite (keyat_lookup V _ _ HVl). lia.
      * replace s with (2 * pos + 2)%nat by lia. rewrite (keyat_lookup V _ _ HVr). lia.
  - exists false. split; [done|]. split; [lia|].
    intros s Hs Hps. pose proof (parentpos_spec s ltac:(lia)) as Hss.
    replace s with (2 * pos + 1)%nat by lia. lia.
Qed.

(** [_siftup] from the root: the hole at [pos] moves down to a leaf along
    the least children, the item is written there and sifted back up. *)
Lemma _siftup_loop_spec (newitem : A) (pos : nat) (heap V : list A) :
  V = <[pos := newitem]> heap →
  (pos < length heap)%nat →
  agrees V →
  ∃ heap',
    heapq._siftup_loop item_lt heap newitem (length heap) 0 pos = Ok heap' ∧
    heap' ≡ₚ V ∧
    (ordered_around V pos → heap_ordered heap').
Proof.
  remember (length heap - pos)%nat as n eqn:Hn. revert pos heap V Hn.
  induction (lt_wf n) as [n _ IH]. intros pos heap V -> HV Hpos Hagree.
  assert (length V = length heap) as HlenV by (by rewrite HV, length_insert).
  assert (V !! pos = Some newitem) as HVpos
    by (by rewrite HV, list_lookup_insert_eq).
  rewrite _siftup_loop_unfold.
  destruct (decide (2 * pos + 1 < length heap)%nat) as [Hchild|Hleaf].
  - destruct (right_child_wins_spec newitem pos heap V HV Hagree Hchild)
      as (b & -> & Hcp & Hleast).
    rsimpl. cbn zeta. set (cp := (if b then 2 * pos + 2 else 2 * pos + 1)%nat) in *.
    assert (heapq.parentpos cp = pos ∧ (pos < cp)%nat) as [Hpcp Hposcp].
    { pose proof (parentpos_spec cp) as Hs. subst cp. destruct b; lia. }
    destruct (lookup_lt_is_Some_2 heap cp) as [child Hchildv]; [lia|].
    assert (V !! cp = Some child) as HVcp
      by (rewrite HV, list_lookup_insert_ne by lia; done).
    assert (<[pos := child]> heap = <[pos := child]> V) as Hheap1
      by (by rewrite HV, list_insert_insert_eq).
    pose proof (insert_swap_perm V _ _ _ _ HVcp HVpos) as Hswap.
    unfold getitem. rewrite Hchildv. rsimpl.
    destruct (IH (length heap - cp)%nat ltac:(lia) cp (<[pos := child]> heap)
                (<[cp := newitem]> (<[pos := child]> heap)))
      as (heap' & Hrun & Hperm & Hord).
    + by rewrite length_insert.
    + done.
    + rewrite length_insert. lia.
    + rewrite Hheap1. eapply agrees_perm; [|exact Hagree]. by symmetry.
    + rewrite length_insert in Hrun. exists heap'. split; [done|].
      rewrite Hheap1 in Hperm, Hord. split; [by rewrite Hperm|].
      intros [Hedges Hgrand]. apply Hord.
      rewrite <- HlenV in *.
      clear HV Hheap1 Hperm Hord Hswap Hagree Hrun IH Hchildv. clearbody cp.
      split.
      * intros i Hi Hne Hpne. rewrite !length_insert in Hi.
        rewrite !keyat_insert by (rewrite ?length_insert; lia).
        rewrite <- (keyat_lookup V _ _ HVcp).
        pose proof (parentpos_spec i ltac:(lia)) as Hsi.
        pose proof (Hedges i) as E1. pose proof (Hgrand cp) as G1.
        pose proof (Hleast i) as L1.
        order_cases; lia.
      * intros d Hcp0 Hd Hpd. rewrite !length_insert in Hd.
        rewrite !keyat_insert by (rewrite ?length_insert; lia).
        rewrite <- (keyat_lookup V _ _ HVcp).
        pose proof (parentpos_spec d ltac:(lia)) as Hsd.
        pose proof (Hedges d) as E1.
        order_cases; lia.
  - unfold heapq._siftdown, getitem. rewrite <- HV, HVpos. rsimpl.
    destruct (_siftdown_loop_spec newitem pos V V) as (heap' & Hrun & Hperm & Hord).
    + by rewrite list_insert_id.
    + lia.
    + done.
    + exists heap'. split; [done|]. split; [done|].
      intros [Hedges Hgrand]. apply Hord. split.
      * intros i Hi Hne. apply Hedges; [done|done|].
        pose proof (parentpos_spec i ltac:(lia)). lia.
      * intros c Hp Hc Hpc. by apply Hgrand.
Qed.

Lemma keyat_app_l (l l' : list A) i :
  (i < length l)%nat → keyat (l ++ l') i = keyat l i.
Proof. intros Hi. unfold keyat. by rewrite lookup_app_l. Qed.

Lemma heap_ordered_nil : heap_ordered [].
Proof. intros i Hi. simpl in Hi. lia. Qed.

(** [heappush] keeps the items, adds the new one, and keeps the order. *)
Lemma heappush_spec (heap : list A) (item : A) :
  agrees (item :: heap) →
  ∃ heap',
    heapq.heappush item_lt heap item = Ok heap' ∧
    heap' ≡ₚ item :: heap ∧
    (heap_ordered heap → heap_ordered heap').
Proof.
  intros Hagree. unfold heapq.heappush, heapq._siftdown. cbn zeta.
  assert (heap ++ [item] ≡ₚ item :: heap) as Hperm1
    by (symmetry; apply Permutation_cons_append).
  rewrite length_app. simpl length.
  replace (length heap + 1 - 1)%nat with (length heap) by lia.
  assert ((heap ++ [item]) !! length heap = Some item) as Hlast
    by (rewrite lookup_app_r, Nat.sub_diag by lia; done).
  unfold getitem. rewrite Hlast. rsimpl.
  destruct (_siftdown_loop_spec item (length heap) (heap ++ [item]) (heap ++ [item]))
    as (heap' & Hrun & Hperm & Hord).
  - by rewrite list_insert_id.
  - rewrite length_app. simpl. lia.
  - eapply agrees_perm; [|exact Hagree]. by symmetry.
  - exists heap'. split; [done|]. split; [by rewrite Hperm|].
    intros Hheap. apply Hord. split.
    + intros i Hi Hne. rewrite length_app in Hi. simpl in Hi.
      pose proof (parentpos_lt i ltac:(lia)).
      rewrite !keyat_app_l by lia. apply Hheap. lia.
    + intros c _ Hc Hpc. rewrite length_app in Hc. simpl in Hc.
      pose proof (parentpos_lt c ltac:(lia)). lia.
Qed.

(** [heappop] returns the first item and keeps the others, in order. *)
Lemma heappop_spec (heap : list A) :
  heap ≠ [] →
  agrees heap →
  ∃ x heap',
    heapq.heappop item_lt heap = Ok (x, heap') ∧
    heap !! 0%nat = Some x ∧
    heap ≡ₚ x :: heap' ∧
    (heap_ordered heap → heap_ordered heap').
Proof.
  intros Hne Hagree. unfold heapq.heappop.
  destruct (last heap) as [lastelt|] eqn:Hlast; [|by apply last_None in Hlast].
  apply last_Some in Hlast as [front ->]. rewrite removelast_last.
  destruct front as [|returnitem front].
  - exists lastelt, []. split; [done|]. split; [done|]. split; [done|].
    intros _. apply heap_ordered_nil.
  - unfold heapq._siftup, getitem. simpl insert. simpl lookup. rsimpl.
    destruct (_siftup_loop_spec lastelt 0 (lastelt :: front) (lastelt :: front))
      as (heap' & Hrun & Hperm & Hord).
    + done.
    + simpl. lia.
    + apply (agrees_cons _ returnitem). eapply agrees_perm; [|exact Hagree].
      simpl. constructor. symmetry. apply Permutation_cons_append.
    + rewrite Hrun. rsimpl. exists returnitem, heap'.
      split; [done|]. split; [done|]. split.
      * rewrite Hperm. simpl. constructor. symmetry. apply Permutation_cons_append.
      * intros Hheap. apply Hord. split.
        { intros i Hi Hi0 Hp0. simpl in Hi.
          pose proof (parentpos_lt i ltac:(lia)).
          specialize (Hheap i). rewrite length_app in Hheap. simpl in Hheap.
          specialize (Hheap ltac:(lia)).
          unfold keyat in *.
          destruct i as [|i]; [lia|].
          destruct (heapq.parentpos (S i)) as [|p] eqn:Hp; [lia|].
          simpl in *. rewrite !lookup_app_l in Hheap by lia. done. }
        { intros c Hc. lia. }
Qed.

End heap_order.

(** ** Facts about the interrupt queue *)

Section interrupt_facts.
Implicit Types (entries queue : list (Z * handler)) (invoke : handler → IC.outcome).

Lemma comparable_agrees entries :
  comparable entries → agrees IC.tuple_lt fst entries.
Proof.
  intros Hc a b Ha Hb. unfold IC.tuple_lt.
  destruct (decide (a.1 = b.1)) as [Heq|Hne]; [|done].
  rewrite decide_True by by apply Hc.
  rewrite bool_decide_eq_false_2 by lia. done.
Qed.

Lemma comparable_perm entries entries' :
  entries ≡ₚ entries' → comparable entries → comparable entries'.
Proof. intros Hp Hc a b Ha Hb. apply Hc; by rewrite Hp. Qed.

Lemma comparable_sub entries entries' :
  (∀ x, x ∈ entries' → x ∈ entries) → comparable entries → comparable entries'.
Proof. intros Hsub Hc a b Ha Hb. apply Hc; by apply Hsub. Qed.

(** A sequence of [raise_interrupt] calls with comparable entries goes
    through and leaves a heap holding the old entries and the new. *)
Lemma raise_all_spec entries self :
  comparable (entries ++ IC.interrupt_queue self) →
  heap_ordered fst (IC.interrupt_queue self) →
  ∃ self',
    IC.raise_all entries self = Ok self' ∧
    IC.interrupt_queue self' ≡ₚ entries ++ IC.interrupt_queue self ∧
    heap_ordered fst (IC.interrupt_queue self').
Proof.
  revert self. induction entries as [|[priority h] entries IH]; intros self Hc Hheap.
  - exists self. done.
  - simpl. unfold IC.raise_interrupt.
    destruct (heappush_spec IC.tuple_lt fst (IC.interrupt_queue self) (priority, h))
      as (queue & -> & Hperm & Hord).
    { apply comparable_agrees. eapply comparable_sub; [|exact Hc].
      intros x [->|Hx]%elem_of_cons; simpl.
      - by left.
      - right. apply elem_of_app. by right. }
    rsimpl. destruct (IH (IC.mk queue)) as (self' & Hrun & Hperm' & Hheap').
    + simpl. eapply comparable_perm; [|exact Hc].
      rewrite Hperm. simpl. by rewrite Permutation_middle.
    + by apply Hord.
    + exists self'. split; [done|]. split; [|done].
      rewrite Hperm'. simpl. rewrite Hperm. by rewrite Permutation_middle.
Qed.

(** The loop of [handle_interrupts], as the source writes it. *)
Lemma handle_loop_unfold invoke queue :
  IC.handle_loop invoke queue =
    match queue with
    | [] => mkM [] (Ok [])
    | _ :: _ =>
        match heapq.heappop IC.tuple_lt queue with
        | Raise e => mkM [] (Raise e)
        | Ok (item, queue') =>
            mkM (IC.guarded_call invoke item.2 ++ trace (IC.handle_loop invoke queue'))
                (value (IC.handle_loop invoke queue'))
        end
    end.
Proof.
  destruct queue as [|entry queue]; [by simp handle_loop|].
  simp handle_loop. unfold IC.inspect.
  assert (∀ r (Hpop : heapq.heappop IC.tuple_lt (entry :: queue) = r),
            IC.handle_loop_unfold_clause_2 invoke entry queue (r ↾ Hpop) =
            match r with
            | Raise e => mkM [] (Raise e)
            | Ok (item, queue') =>
                mkM (IC.guarded_call invoke item.2 ++
                       trace (IC.handle_loop invoke queue'))
                    (value (IC.handle_loop invoke queue'))
            end) as Hclause
    by (intros [[item queue']|e] Hpop; by simp handle_loop).
  apply Hclause.
Qed.

(** On a heap of comparable entries the loop calls every handler, in
    ascending order of priority, and ends on the empty queue. *)
Lemma handle_loop_spec invoke queue :
  comparable queue →
  heap_ordered fst queue →
  ∃ sorted,
    sorted ≡ₚ queue ∧ ascending sorted ∧
    IC.handle_loop invoke queue = mkM (calls_in_turn invoke sorted) (Ok []).
Proof.
  remember (length queue) as n eqn:Hn. revert queue Hn.
  induction (lt_wf n) as [n _ IH]. intros queue -> Hc Hheap.
  rewrite handle_loop_unfold. destruct queue as [|entry queue].
  { exists []. split; [done|]. split; [constructor | done]. }
  destruct (heappop_spec IC.tuple_lt fst (entry :: queue))
    as (item & queue' & -> & Hfirst & Hperm & Hord); [done | by apply comparable_agrees |].
  destruct (IH (length queue')) with (queue := queue')
    as (sorted & Hsorted & Hasc & ->).
  - apply Permutation_length in Hperm. simpl in *. lia.
  - done.
  - eapply comparable_sub; [|exact Hc]. intros x Hx. rewrite Hperm. by right.
  - by apply Hord.
  - exists (item :: sorted). split; [by rewrite Hperm, Hsorted|]. split; [|done].
    constructor; [done|]. apply Forall_forall. intros b Hb.
    apply (heap_ordered_root_least fst (entry :: queue)); [done..|].
    rewrite Hperm. right. by rewrite <- Hsorted.
Qed.

Lemma calls_calls_in_turn invoke entries :
  IC.calls (calls_in_turn invoke entries) = entries.*2.
Proof.
  induction entries as [|[priority h] entries IH]; [done|].
  unfold calls_in_turn, IC.calls in *. simpl. rewrite omap_app, IH.
  unfold IC.guarded_call. by destruct (invoke h).
Qed.

(** Which handlers are called, and how the loop ends, does not depend on
    which handlers raise. *)
Lemma handle_loop_independent invoke invoke' queue :
  IC.calls (trace (IC.handle_loop invoke queue)) =
    IC.calls (trace (IC.handle_loop invoke' queue)) ∧
  value (IC.handle_loop invoke queue) = value (IC.handle_loop invoke' queue).
Proof.
  remember (length queue) as n eqn:Hn. revert queue Hn.
  induction (lt_wf n) as [n _ IH]. intros queue ->.
  rewrite !handle_loop_unfold. destruct queue as [|entry queue]; [done|].
  destruct (heapq.heappop IC.tuple_lt (entry :: queue)) as [[item queue']|e] eqn:Hpop;
    [|done].
  apply heappop_length in Hpop.
  destruct (IH (length queue')) with (queue := queue') as [Hcalls Hvalue];
    [lia | done |].
  simpl. split; [|done]. unfold IC.calls in *. rewrite !omap_app, Hcalls.
  f_equal. unfold IC.guarded_call. by destruct (invoke item.2), (invoke' item.2).
Qed.

(** Raised from the empty queue, comparable entries are handled in
    ascending order. *)
Lemma raise_then_handle invoke entries :
  comparable entries →
  ∃ self sorted,
    IC.raise_all entries IC.init = Ok self ∧
    sorted ≡ₚ entries ∧ ascending sorted ∧
    IC.handle_interrupts invoke self =
      mkM (calls_in_turn invoke sorted) (Ok IC.init).
Proof.
  intros Hc.
  destruct (raise_all_spec entries IC.init) as (self & Hraise & Hperm & Hheap).
  { simpl. by rewrite app_nil_r. }
  { apply heap_ordered_nil. }
  simpl in Hperm. rewrite app_nil_r in Hperm.
  destruct (handle_loop_spec invoke (IC.interrupt_queue self))
    as (sorted & Hsorted & Hasc & Hloop).
  { eapply comparable_perm; [|exact Hc]. by symmetry. }
  { done. }
  exists self, sorted. split; [done|]. split; [by rewrite Hsorted|]. split; [done|].
  unfold IC.handle_interrupts. rewrite Hloop.
  unfold mbind, M_bind. simpl. by rewrite app_nil_r.
Qed.

End interrupt_facts.

(** ** The claims about the interrupt controller *)

(** C4, as the claim states it, fails on entries that tie: three
    [raise_interrupt] calls go through, and [handle_interrupts] then raises
    [TypeError] from [heappop], before any handler is called, when the
    two entries of priority 2 meet. *)
Lemma C4_counterexample :
  ∃ self,
    IC.raise_all [(1, 1%nat); (2, 2%nat); (2, 3%nat)] IC.init = Ok self ∧
    ∀ invoke, IC.handle_interrupts invoke self = mkM [] (Raise TypeError).
Proof. eexists. split; [vm_compute; reflexivity|]. intros invoke. reflexivity. Qed.

(** C4 (amended): for every pending collection of entries in which no two
    entries share a priority and differ in their handler,
    [handle_interrupts] removes and calls the entries one at a time in
    ascending order of priority until the queue is empty; and
    [raise_interrupt(2, h2)], [raise_interrupt(1, h1)],
    [handle_interrupts()] calls [h1] before [h2]. *)
Theorem C4_ascending_priority_order (invoke : handler → IC.outcome) :
  (∀ entries,
     comparable entries →
     ∃ self sorted tr,
       IC.raise_all entries IC.init = Ok self ∧
       sorted ≡ₚ entries ∧ ascending sorted ∧
       IC.handle_interrupts invoke self = mkM tr (Ok IC.init) ∧
       tr = calls_in_turn invoke sorted ∧
       IC.calls tr = sorted.*2) ∧
  (∀ h1 h2 : handler,
     ∃ self tr,
       IC.raise_all [(2, h2); (1, h1)] IC.init = Ok self ∧
       IC.handle_interrupts invoke self = mkM tr (Ok IC.init) ∧
       IC.calls tr = [h1; h2]).
Proof.
  split.
  - intros entries Hc.
    destruct (raise_then_handle invoke entries Hc) as (self & sorted & ? & ? & ? & ?).
    exists self, sorted, (calls_in_turn invoke sorted).
    repeat (split; [done|]). apply calls_calls_in_turn.
  - intros h1 h2. exists (IC.mk [(1, h1); (2, h2)]).
    exists (calls_in_turn invoke [(1, h1); (2, h2)]).
    split; [reflexivity|]. split; [|apply calls_calls_in_turn].
    assert (heapq.heappop IC.tuple_lt [(1, h1); (2, h2)] = Ok ((1, h1), [(2, h2)]))
      as Hpop1 by reflexivity.
    assert (heapq.heappop IC.tuple_lt [(2, h2)] = Ok ((2, h2), [])) as Hpop2
      by reflexivity.
    unfold IC.handle_interrupts. simpl IC.interrupt_queue.
    rewrite handle_loop_unfold, Hpop1, handle_loop_unfold, Hpop2, handle_loop_unfold.
    unfold mbind, M_bind, calls_in_turn. simpl.
    by rewrite !app_nil_r.
Qed.

Lemma C4_ascending_priority_order_witness :
  ∃ self sorted tr,
    IC.raise_all [(3, 7%nat); (1, 5%nat); (2, 9%nat); (1, 5%nat)] IC.init = Ok self ∧
    sorted ≡ₚ [(3, 7%nat); (1, 5%nat); (2, 9%nat); (1, 5%nat)] ∧
    ascending sorted ∧
    IC.handle_interrupts (λ _, IC.Returns) self = mkM tr (Ok IC.init) ∧
    tr = calls_in_turn (λ _, IC.Returns) sorted ∧
    IC.calls tr = sorted.*2.
Proof.
  apply (proj1 (C4_ascending_priority_order (λ _, IC.Returns))).
  intros a b Ha Hb Heq.
  repeat (apply elem_of_cons in Ha as [->|Ha]);
    repeat (apply elem_of_cons in Hb as [->|Hb]);
    try (by apply elem_of_nil in Ha); try (by apply elem_of_nil in Hb);
    simpl in *; try reflexivity; discriminate.
Defined.

(** C5, as the claim states it, fails on entries that tie: the first
    handler raises and is caught and reported, and the next [heappop]
    raises [TypeError] outside the [try]; it escapes
    [handle_interrupts], and the three handlers still queued are never
    called. *)
Lemma C5_counterexample :
  ∃ self,
    IC.raise_all [(0, 0%nat); (1, 1%nat); (2, 2%nat); (2, 3%nat)] IC.init = Ok self ∧
    IC.handle_interrupts (λ _, IC.Raises "boom") self =
      mkM [Called 0%nat; Printed "Interrupt handler error: boom"] (Raise TypeError).
Proof. eexists. split; [vm_compute; reflexivity|]. reflexivity. Qed.

(** C5 (amended): for every queue of pending entries in which no two
    entries share a priority and differ in their handler, whichever
    handlers raise, [handle_interrupts] calls every queued handler once,
    ends on the empty queue and lets no exception escape; a handler that
    raises is followed by the line reporting its error; and on any queue
    at all, which handlers are called and how the call ends do not depend
    on which handlers raise. *)
Theorem C5_handler_failure_is_isolated (invoke : handler → IC.outcome) :
  (∀ entries,
     comparable entries →
     ∃ self sorted,
       IC.raise_all entries IC.init = Ok self ∧
       sorted ≡ₚ entries ∧
       IC.handle_interrupts invoke self =
         mkM (calls_in_turn invoke sorted) (Ok IC.init) ∧
       IC.calls (calls_in_turn invoke sorted) ≡ₚ entries.*2) ∧
  (∀ h message,
     invoke h = IC.Raises message →
     IC.guarded_call invoke h =
       [Called h; Printed ("Interrupt handler error: " +:+ message)]) ∧
  (∀ invoke' self,
     IC.calls (trace (IC.handle_interrupts invoke self)) =
       IC.calls (trace (IC.handle_interrupts invoke' self)) ∧
     value (IC.handle_interrupts invoke self) =
       value (IC.handle_interrupts invoke' self)).
Proof.
  split; [|split].
  - intros entries Hc.
    destruct (raise_then_handle invoke entries Hc) as (self & sorted & ? & Hp & ? & ?).
    exists self, sorted. repeat (split; [done|]).
    rewrite calls_calls_in_turn. by rewrite Hp.
  - intros h message Hh. unfold IC.guarded_call. by rewrite Hh.
  - intros invoke' self. unfold IC.handle_interrupts.
    destruct (handle_loop_independent invoke invoke' (IC.interrupt_queue self))
      as [Hcalls Hvalue].
    unfold mbind, M_bind. rewrite <- Hvalue.
    destruct (value (IC.handle_loop invoke (IC.interrupt_queue self))); simpl.
    + unfold IC.calls in *. by rewrite !omap_app, Hcalls.
    + done.
Qed.

Lemma C5_handler_failure_is_isolated_witness :
  ∃ self sorted,
    IC.raise_all [(3, 7%nat); (1, 5%nat); (2, 9%nat)] IC.init = Ok self ∧
    sorted ≡ₚ [(3, 7%nat); (1, 5%nat); (2, 9%nat)] ∧
    IC.handle_interrupts (λ _, IC.Raises "boom") self =
      mkM (calls_in_turn (λ _, IC.Raises "boom") sorted) (Ok IC.init) ∧
    IC.calls (calls_in_turn (λ _, IC.Raises "boom") sorted) ≡ₚ
      [(3, 7%nat); (1, 5%nat); (2, 9%nat)].*2.
Proof.
  apply (proj1 (C5_handler_failure_is_isolated (λ _, IC.Raises "boom"))).
  intros a b Ha Hb Heq.
  repeat (apply elem_of_cons in Ha as [->|Ha]);
    repeat (apply elem_of_cons in Hb as [->|Hb]);
    try (by apply elem_of_nil in Ha); try (by apply elem_of_nil in Hb);
    simpl in *; try reflexivity; discriminate.
Defined.

(** C8, evaluated where it fails: a second [raise_interrupt] with the
    priority of the entry already queued and a different handler raises
    [TypeError]; [heappush] compares the two tuples, the priorities are
    equal, and the comparison falls through to the two functions. *)
Theorem C8_equal_priority_raises (priority : Z) (h h' : handler) :
  h ≠ h' →
  IC.raise_interrupt priority h IC.init ≫= IC.raise_interrupt priority h' =
    Raise TypeError.
Proof.
  intros Hne.
  assert (IC.raise_interrupt priority h IC.init = Ok (IC.mk [(priority, h)])) as ->
    by reflexivity.
  rsimpl. unfold IC.raise_interrupt, heapq.heappush, heapq._siftdown. simpl.
  rewrite _siftdown_loop_unfold. simpl.
  unfold IC.tuple_lt. simpl.
  rewrite decide_True by done. rewrite decide_False by done. done.
Qed.

Lemma C8_equal_priority_raises_witness :
  IC.raise_interrupt 1 1%nat IC.init ≫= IC.raise_interrupt 1 2%nat = Raise TypeError.
Proof. apply (C8_equal_priority_raises 1 1%nat 2%nat). discriminate. Defined.

(** ** Facts about the ready queue *)

Section scheduler_facts.
Implicit Types (objects : list Process) (self : PS.t) (process r : ref).

Lemma Process_lt_agrees objects (l : list ref) :
  agrees (Process_lt objects) (prio objects) l.
Proof. by intros x y _ _. Qed.

Lemma prio_alter objects s process r :
  prio (alter (set_state s) process objects) r = prio objects r.
Proof.
  unfold prio. rewrite list_lookup_total_alter.
  case_decide as H; [destruct H as [-> _]|]; done.
Qed.

Lemma prio_new objects p r :
  (r < length objects)%nat → prio (objects ++ [p]) r = prio objects r.
Proof. intros Hr. unfold prio. by rewrite lookup_total_app_l. Qed.

Lemma heap_ordered_ext {A} (key key' : A → Z) (l : list A) :
  (∀ x, x ∈ l → key x = key' x) → heap_ordered key l → heap_ordered key' l.
Proof.
  intros Hext Hl i Hi.
  assert (∀ j, keyat key' l j = keyat key l j) as Hkeyat.
  { intros j. unfold keyat. destruct (l !! j) as [x|] eqn:Hx; [|done].
    simpl. symmetry. apply Hext. by eapply list_elem_of_lookup_2. }
  rewrite !Hkeyat. by apply Hl.
Qed.

(** [add_process] never raises; it marks the process READY and puts it in
    the queue, which stays a heap. *)
Lemma add_process_spec process objects self :
  ∃ queue,
    PS.add_process process objects self =
      Ok (alter (set_state "READY") process objects,
          PS.mk queue (PS.running_process self)) ∧
    queue ≡ₚ process :: PS.ready_queue self ∧
    (heap_ordered (prio objects) (PS.ready_queue self) →
     heap_ordered (prio objects) queue).
Proof.
  unfold PS.add_process.
  destruct (heappush_spec (Process_lt objects) (prio objects)
              (PS.ready_queue self) process)
    as (queue & -> & Hperm & Hord); [apply Process_lt_agrees|].
  by exists queue.
Qed.

(** [schedule_next_process] on a queue that is not empty. *)
Lemma schedule_next_process_spec objects self :
  PS.ready_queue self ≠ [] →
  ∃ process queue,
    PS.schedule_next_process objects self =
      mkM [Printed ("Running process: " +:+
                  name (alter (set_state "RUNNING") process objects !!! process) +:+
                  " (PID: " +:+
                  pid (alter (set_state "RUNNING") process objects !!! process) +:+ ")")]
          (Ok (alter (set_state "RUNNING") process objects,
               PS.mk queue (Some process), Some process)) ∧
    PS.ready_queue self !! 0%nat = Some process ∧
    PS.ready_queue self ≡ₚ process :: queue ∧
    (heap_ordered (prio objects) (PS.ready_queue self) →
     heap_ordered (prio objects) queue ∧
     ∀ r, r ∈ PS.ready_queue self → prio objects process ≤ prio objects r).
Proof.
  intros Hne. unfold PS.schedule_next_process.
  destruct (heappop_spec (Process_lt objects) (prio objects) (PS.ready_queue self))
    as (process & queue & Hpop & Hfirst & Hperm & Hord);
    [done | apply Process_lt_agrees |].
  destruct (PS.ready_queue self) as [|r0 ready] eqn:Hready; [done|].
  rewrite Hpop. exists process, queue. split; [done|]. split; [done|].
  split; [done|]. intros Hheap. split; [by apply Hord|].
  intros r Hr. by apply (heap_ordered_root_least _ (r0 :: ready)).
Qed.

Lemma schedule_next_process_empty objects self :
  PS.ready_queue self = [] →
  PS.schedule_next_process objects self = mkM [] (Ok (objects, PS.mk [] None, None)).
Proof. intros Hnil. unfold PS.schedule_next_process. by rewrite Hnil. Qed.

Lemma ready_heap_reachable objects self :
  reachable objects self → ready_heap objects self.
Proof.
  induction 1 as [|objects self uuid nm pr _ [Hheap Hwf]
                  |objects self process objects' self' _ [Hheap Hwf] Hprocess Hadd
                  |objects self tr objects' self' r _ [Hheap Hwf] Hsched
                  |objects self tr objects' self' r _ [Hheap Hwf] Hterm].
  - split; [apply heap_ordered_nil | by intros r Hr%elem_of_nil].
  - split.
    + eapply heap_ordered_ext; [|exact Hheap].
      intros r Hr. symmetry. apply prio_new. by apply Hwf.
    + intros r Hr. rewrite length_app. specialize (Hwf r Hr). lia.
  - destruct (add_process_spec process objects self) as (queue & Heq & Hperm & Hord).
    rewrite Heq in Hadd. injection Hadd as <- <-. simpl. split.
    + eapply heap_ordered_ext; [|by apply Hord].
      intros r _. symmetry. apply prio_alter.
    + intros r Hr. simpl in Hr. rewrite length_alter. rewrite Hperm in Hr.
      apply elem_of_cons in Hr as [->|Hr]; [done | by apply Hwf].
  - destruct (decide (PS.ready_queue self = [])) as [Hnil|Hne].
    + rewrite schedule_next_process_empty in Hsched by done.
      injection Hsched as _ <- <- _. simpl. split; [apply heap_ordered_nil|].
      by intros r' Hr'%elem_of_nil.
    + destruct (schedule_next_process_spec objects self Hne)
        as (process & queue & Heq & _ & Hperm & Hord).
      rewrite Heq in Hsched. injection Hsched as _ <- <- _. simpl. split.
      * eapply heap_ordered_ext; [|by apply Hord].
        intros r' _. symmetry. apply prio_alter.
      * intros r' Hr'. simpl in Hr'. rewrite length_alter. apply Hwf.
        rewrite Hperm. by right.
  - unfold PS.terminate_current_process in Hterm.
    destruct (PS.running_process self) as [process|] eqn:Hrun.
    + injection Hterm as _ <- <- _. simpl. split.
      * eapply heap_ordered_ext; [|exact Hheap].
        intros r' _. symmetry. apply prio_alter.
      * intros r' Hr'. simpl in Hr'. rewrite length_alter. by apply Hwf.
    + injection Hterm as _ <- <- _. done.
Qed.

End scheduler_facts.

(** ** The claims about the scheduler and about process creation *)

(** C6: in every state the scheduler can reach, [schedule_next_process]
    with a ready queue that is not empty removes a ready process of the
    smallest priority value, marks it RUNNING, makes it the running
    process and returns it; with an empty ready queue it empties the
    running slot and returns [None]; and processes of priorities 5, 1, 3
    added in that order are selected in the order 1, 3, 5. *)
Theorem C6_schedule_next_process :
  (∀ objects self,
     reachable objects self →
     (PS.ready_queue self = [] →
        PS.schedule_next_process objects self =
          mkM [] (Ok (objects, PS.mk [] None, None))) ∧
     (PS.ready_queue self ≠ [] →
        ∃ process queue tr,
          PS.schedule_next_process objects self =
            mkM tr (Ok (alter (set_state "RUNNING") process objects,
                        PS.mk queue (Some process), Some process)) ∧
          process ∈ PS.ready_queue self ∧
          PS.ready_queue self ≡ₚ process :: queue ∧
          (∀ r, r ∈ PS.ready_queue self →
                priority (objects !!! process) ≤ priority (objects !!! r)) ∧
          state (alter (set_state "RUNNING") process objects !!! process) = "RUNNING")) ∧
  (∃ objects self,
     add_new [5; 1; 3] [] PS.init = Ok (objects, self) ∧
     value (selections 3 objects self) = Ok [Some 1; Some 3; Some 5]).
Proof.
  split.
  - intros objects self [Hheap Hwf]%ready_heap_reachable. split.
    + apply schedule_next_process_empty.
    + intros Hne.
      destruct (schedule_next_process_spec objects self Hne)
        as (process & queue & Heq & Hfirst & Hperm & Hord).
      assert (process ∈ PS.ready_queue self) as Hin
        by by eapply list_elem_of_lookup_2.
      exists process, queue. eexists. split; [exact Heq|]. split; [done|].
      split; [done|]. split; [by apply Hord|].
      rewrite list_lookup_total_alter_eq by by apply Hwf. done.
  - eexists _, _. split; [vm_compute; reflexivity|]. vm_compute. reflexivity.
Qed.

Lemma C6_schedule_next_process_witness :
  ∃ process queue tr,
    PS.schedule_next_process
      [mkProcess "u-5" "five" 5 "READY"; mkProcess "u-1" "one" 1 "READY"]
      (PS.mk [1%nat; 0%nat] None) =
      mkM tr (Ok (alter (set_state "RUNNING") process
                    [mkProcess "u-5" "five" 5 "READY"; mkProcess "u-1" "one" 1 "READY"],
                  PS.mk queue (Some process), Some process)) ∧
    process ∈ [1%nat; 0%nat] ∧
    [1%nat; 0%nat] ≡ₚ process :: queue ∧
    (∀ r, r ∈ [1%nat; 0%nat] →
          priority ([mkProcess "u-5" "five" 5 "READY";
                     mkProcess "u-1" "one" 1 "READY"] !!! process) ≤
          priority ([mkProcess "u-5" "five" 5 "READY";
                     mkProcess "u-1" "one" 1 "READY"] !!! r)) ∧
    state (alter (set_state "RUNNING") process
             [mkProcess "u-5" "five" 5 "READY"; mkProcess "u-1" "one" 1 "READY"]
           !!! process) = "RUNNING".
Proof.
  refine (proj2 (proj1 C6_schedule_next_process
                   [mkProcess "u-5" "five" 5 "READY"; mkProcess "u-1" "one" 1 "READY"]
                   (PS.mk [1%nat; 0%nat] None) _) _); [|discriminate].
  apply (reachable_add
           [mkProcess "u-5" "five" 5 "READY"; Process_init "u-1" "one" 1]
           (PS.mk [0%nat] None) 1%nat); [|simpl; lia|reflexivity].
  apply (reachable_new [mkProcess "u-5" "five" 5 "READY"] (PS.mk [0%nat] None)
           "u-1" "one" 1).
  apply (reachable_add [Process_init "u-5" "five" 5] PS.init 0%nat);
    [|simpl; lia|reflexivity].
  apply (reachable_new [] PS.init "u-5" "five" 5). apply reachable_init.
Defined.

(** C7: when the allocation fails, [create_process] leaves the kernel as
    it was, scheduler included, raises nothing and returns [None] after
    printing the failure; when it succeeds, the new process is READY, in
    the ready queue, and returned. *)
Theorem C7_create_process (uuid name : string) (priority memory_required : Z)
    (self : Kernel.t) :
  (¬ MM.used_memory (Kernel.memory_manager self) + memory_required ≤
       MM.total_memory (Kernel.memory_manager self) →
   Kernel.create_process uuid name priority memory_required self =
     mkM [Printed ("Failed to create process " +:+ name +:+ ": Insufficient memory")]
         (Ok (None, self))) ∧
  (MM.used_memory (Kernel.memory_manager self) + memory_required ≤
     MM.total_memory (Kernel.memory_manager self) →
   ∃ queue,
     Kernel.create_process uuid name priority memory_required self =
       mkM []
         (Ok (Some (length (Kernel.objects self)),
              Kernel.mk
                (Kernel.objects self ++ [mkProcess uuid name priority "READY"])
                (MM.mk (MM.total_memory (Kernel.memory_manager self))
                       (MM.used_memory (Kernel.memory_manager self) + memory_required)
                       (<[uuid := memory_required]>
                          (MM.memory_map (Kernel.memory_manager self))))
                (Kernel.interrupt_controller self)
                (PS.mk queue (PS.running_process (Kernel.process_scheduler self)))
                (Kernel.running self))) ∧
     queue ≡ₚ length (Kernel.objects self) ::
                PS.ready_queue (Kernel.process_scheduler self)).
Proof.
  split; intros Hmem; unfold Kernel.create_process; cbn zeta.
  - rewrite allocate_memory_failure by done. done.
  - rewrite allocate_memory_success by done.
    destruct (add_process_spec (length (Kernel.objects self))
                (Kernel.objects self ++ [Process_init uuid name priority])
                (Kernel.process_scheduler self)) as (queue & -> & Hperm & _).
    exists queue. split; [|done]. unfold lift, mbind, M_bind. simpl.
    rewrite alter_app_r_alt by done. by rewrite Nat.sub_diag.
Qed.


(** ** Facts about threads *)

Section thread_facts.
Implicit Types (t : nat) (p : T.pc) (s : T.shared) (l : T.lock) (c : T.config).

Lemma holder_set_holder s l l' h :
  T.holder (T.set_holder l h s) l' =
    if bool_decide (l = l') then h else T.holder s l'.
Proof. by destruct l, l'. Qed.

Lemma holder_set_kernel s k l : T.holder (T.set_kernel k s) l = T.holder s l.
Proof. by destruct l. Qed.

(** A statement keeps the locks and stays where it is with respect to the
    [with] blocks, or it enters a block whose lock is free, or it leaves
    the block it is in. *)
Lemma exec_locks t p s p' s' :
  T.exec t p s p' s' →
  ((∀ l, T.holder s' l = T.holder s l) ∧
   (T.in_with p' = T.in_with p ∨ T.in_with p = None ∧ T.in_with p' = None)) ∨
  (∃ l, T.in_with p = None ∧ T.holder s l = None ∧ T.in_with p' = Some l ∧
        s' = T.set_holder l (Some t) s) ∨
  (∃ l, T.in_with p = Some l ∧ T.in_with p' = None ∧
        s' = T.set_holder l None s).
Proof.
  destruct 1; simpl;
    try (left; split; [intros l; by rewrite ?holder_set_kernel | by auto]);
    try (right; left; eexists; by eauto);
    try (right; right; eexists; by eauto).
Qed.

Lemma lock_inv_initial k n : lock_inv (T.initial k n).
Proof.
  intros t p l Hp Hl. simpl in Hp. apply lookup_replicate in Hp as [-> _]. done.
Qed.

Lemma in_with_entry call : T.in_with (T.entry call) = None.
Proof. by destruct call. Qed.

Lemma lock_inv_step c c' : T.step c c' → lock_inv c → lock_inv c'.
Proof.
  intros Hstep Hinv.
  destruct Hstep as [t call s ths Ht | t p s p' s' ths Ht Hexec];
    intros t' q l Hq Hl; simpl in *.
  - destruct (decide (t = t')) as [<-|Hne].
    + rewrite list_lookup_insert_eq in Hq by by eapply lookup_lt_Some.
      injection Hq as <-. by rewrite in_with_entry in Hl.
    + rewrite list_lookup_insert_ne in Hq by done. by apply (Hinv t' q l).
  - destruct (decide (t = t')) as [<-|Hne].
    + rewrite list_lookup_insert_eq in Hq by by eapply lookup_lt_Some.
      injection Hq as <-.
      destruct (exec_locks _ _ _ _ _ Hexec)
        as [[Hsame [Hin|[_ Hin]]] | [(l' & _ & _ & Hin & ->) | (l' & _ & Hin & _)]].
      * rewrite Hsame. apply (Hinv t p l); [done | congruence].
      * congruence.
      * rewrite holder_set_holder. replace l' with l by congruence.
        by rewrite bool_decide_eq_true_2.
      * congruence.
    + rewrite list_lookup_insert_ne in Hq by done.
      pose proof (Hinv t' q l Hq Hl) as Hheld. simpl in Hheld.
      destruct (exec_locks _ _ _ _ _ Hexec)
        as [[Hsame _] | [(l' & _ & Hfree & _ & ->) | (l' & Hmine & _ & ->)]].
      * by rewrite Hsame.
      * rewrite holder_set_holder. case_bool_decide; [congruence | done].
      * rewrite holder_set_holder. case_bool_decide as Heq; [|done].
        subst l'. pose proof (Hinv t p l Ht Hmine) as Hheld'. simpl in Hheld'.
        congruence.
Qed.

Lemma lock_inv_reachable k n c : T.reachable k n c → lock_inv c.
Proof.
  unfold T.reachable. revert c. apply rtc_ind_r.
  - apply lock_inv_initial.
  - intros c1 c2 _ Hstep Hinv. by eapply lock_inv_step.
Qed.

(** Outside [terminate_current_process] and the memory manager, a
    statement that touches a component is inside the [with] block of that
    component's lock, but for one: the [return self.running_process] of
    [schedule_next_process]. *)
Lemma touches_in_with p comp :
  T.touches p = Some comp →
  comp ≠ T.Memory →
  T.in_terminate p = false →
  p ≠ T.schedule_return →
  T.in_with p = T.lock_of comp ∧ is_Some (T.lock_of comp).
Proof.
  intros Htouch Hcomp Hterm Hreturn.
  destruct p; simpl in *; try discriminate; injection Htouch as <-;
    try done; split; by eauto.
Qed.

(** A [return self.running_process] changes nothing. *)
Lemma exec_return_reads t p s p' s' :
  is_Some (T.returns p s) → T.exec t p s p' s' → p' = T.Idle ∧ s' = s.
Proof. intros [r Hr] Hexec. by destruct Hexec. Qed.

Lemma runs_refl t p s : T.runs t p s p s.
Proof. apply rtc_refl. Qed.

Lemma runs_l t p s p1 s1 p' s' :
  T.exec t p s p1 s1 → T.runs t p1 s1 p' s' → T.runs t p s p' s'.
Proof. intros Hexec Hruns. by eapply (rtc_l _ (p, s) (p1, s1)). Qed.

(** A thread that runs a method alone, from its first statement to its
    return, changes the kernel as the method's definition above says. *)
Lemma runs_allocate_memory t process_id size s :
  T.runs t (T.allocate_test process_id size) s T.Idle
    (T.set_kernel
       (T.set_memory
          (MM.allocate_memory process_id size (Kernel.memory_manager (T.kernel s))).2
          (T.kernel s)) s).
Proof.
  destruct s as [[objects [total used map] controller scheduler running] hi hs].
  unfold MM.allocate_memory. simpl. case_bool_decide as Hfull.
  - eapply runs_l; [by apply T.exec_allocate_full | apply runs_refl].
  - eapply runs_l; [by apply T.exec_allocate_fits|].
    eapply runs_l; [apply T.exec_allocate_record|].
    eapply runs_l; [apply T.exec_allocate_add|]. apply runs_refl.
Qed.

Lemma runs_deallocate_memory t process_id s :
  T.runs t (T.deallocate_test process_id) s T.Idle
    (T.set_kernel
       (T.set_memory
          (MM.deallocate_memory process_id (Kernel.memory_manager (T.kernel s)))
          (T.kernel s)) s).
Proof.
  destruct s as [[objects [total used map] controller scheduler running] hi hs].
  unfold MM.deallocate_memory. simpl. destruct (map !! process_id) as [size|] eqn:Hmap.
  - eapply runs_l; [apply T.exec_deallocate_present; simpl; by rewrite Hmap|].
    eapply runs_l; [by apply (T.exec_deallocate_subtract _ _ size)|].
    eapply runs_l; [apply T.exec_deallocate_delete; simpl; by rewrite Hmap|].
    apply runs_refl.
  - eapply runs_l; [by apply T.exec_deallocate_absent | apply runs_refl].
Qed.

Lemma runs_raise_interrupt t priority h s controller :
  T.holder s T.interrupt_lock = None →
  IC.raise_interrupt priority h (Kernel.interrupt_controller (T.kernel s)) =
    Ok controller →
  T.runs t (T.raise_enter priority h) s T.Idle
    (T.set_kernel (T.set_interrupts controller (T.kernel s)) s).
Proof.
  destruct s as [[objects memory [queue] scheduler running] hi hs].
  simpl. intros -> Hraise. unfold IC.raise_interrupt in Hraise. simpl in Hraise.
  destruct (heapq.heappush _ _ _) as [queue'|] eqn:Hpush; [|done].
  injection Hraise as <-.
  eapply runs_l; [by apply T.exec_raise_enter|].
  eapply runs_l; [by apply (T.exec_raise_push _ _ _ queue')|].
  eapply runs_l; [apply T.exec_raise_exit|]. apply runs_refl.
Qed.

Lemma runs_handle_loop t invoke s queue' :
  value (IC.handle_loop invoke
           (IC.interrupt_queue (Kernel.interrupt_controller (T.kernel s)))) =
    Ok queue' →
  T.runs t T.handle_test s T.handle_exit
    (T.set_kernel (T.set_interrupts (IC.mk queue') (T.kernel s)) s).
Proof.
  remember (length (IC.interrupt_queue (Kernel.interrupt_controller (T.kernel s))))
    as n eqn:Hn.
  revert s Hn. induction (lt_wf n) as [n _ IH]. intros s -> Hloop.
  destruct s as [[objects memory [queue] scheduler running] hi hs]. simpl in *.
  rewrite handle_loop_unfold in Hloop. destruct queue as [|entry queue].
  - injection Hloop as <-.
    eapply runs_l; [by apply T.exec_handle_test_empty | apply runs_refl].
  - destruct (heapq.heappop _ _) as [[[priority h] rest]|] eqn:Hpop; [|done].
    simpl in Hloop.
    eapply runs_l; [by apply T.exec_handle_test_pending|].
    eapply runs_l; [by apply (T.exec_handle_pop _ priority h rest)|].
    eapply runs_l; [apply T.exec_handle_call|].
    apply heappop_length in Hpop. simpl in Hpop.
    apply (IH (length rest) ltac:(simpl; lia)
              (T.mkShared (Kernel.mk objects memory (IC.mk rest) scheduler running)
                          hi hs)); done.
Qed.

Lemma runs_handle_interrupts t invoke s controller :
  T.holder s T.interrupt_lock = None →
  value (IC.handle_interrupts invoke (Kernel.interrupt_controller (T.kernel s))) =
    Ok controller →
  T.runs t T.handle_enter s T.Idle
    (T.set_kernel (T.set_interrupts controller (T.kernel s)) s).
Proof.
  intros Hfree Hhandle. unfold IC.handle_interrupts, mbind, M_bind in Hhandle.
  destruct (value (IC.handle_loop _ _)) as [queue'|] eqn:Hloop; [|done].
  simpl in Hhandle. injection Hhandle as <-.
  eapply runs_l; [by apply T.exec_handle_enter|].
  eapply rtc_trans.
  - apply (runs_handle_loop t invoke _ queue').
    by destruct s as [[objects memory [queue] scheduler running] hi hs].
  - eapply runs_l; [apply T.exec_handle_exit|].
    destruct s as [[objects memory [queue] scheduler running] hi hs].
    simpl in Hfree. subst hi. apply runs_refl.
Qed.

Lemma runs_add_process t process s objects' scheduler' :
  T.holder s T.scheduler_lock = None →
  PS.add_process process (Kernel.objects (T.kernel s))
                 (Kernel.process_scheduler (T.kernel s)) = Ok (objects', scheduler') →
  T.runs t (T.add_enter process) s T.Idle
    (T.set_kernel (T.set_scheduler objects' scheduler' (T.kernel s)) s).
Proof.
  destruct s as [[objects memory controller [ready current] running] hi hs].
  simpl. intros -> Hadd. unfold PS.add_process in Hadd. simpl in Hadd.
  destruct (heapq.heappush _ _ _) as [queue'|] eqn:Hpush; [|done].
  injection Hadd as <- <-.
  eapply runs_l; [by apply T.exec_add_enter|].
  eapply runs_l; [by apply (T.exec_add_push _ _ queue')|].
  eapply runs_l; [apply T.exec_add_ready|].
  eapply runs_l; [apply T.exec_add_exit|]. apply runs_refl.
Qed.

(** For the two methods that end with [return self.running_process]: the
    thread gets to that statement with the kernel changed as the
    definition says, and, no other thread running in between, the
    statement gives back what the definition returns. *)
Lemma runs_schedule_next_process t s objects' scheduler' r :
  T.holder s T.scheduler_lock = None →
  value (PS.schedule_next_process (Kernel.objects (T.kernel s))
           (Kernel.process_scheduler (T.kernel s))) = Ok (objects', scheduler', r) →
  let s' := T.set_kernel (T.set_scheduler objects' scheduler' (T.kernel s)) s in
  T.runs t T.schedule_enter s T.schedule_return s' ∧
  T.returns T.schedule_return s' = Some r ∧
  T.runs t T.schedule_return s' T.Idle s'.
Proof.
  destruct s as [[objects memory controller [ready current] running] hi hs].
  simpl. intros -> Hsched. unfold PS.schedule_next_process in Hsched. simpl in Hsched.
  split; [|split].
  - eapply runs_l; [by apply T.exec_schedule_enter|].
    destruct ready as [|r0 ready].
    + injection Hsched as <- <- <-.
      eapply runs_l; [by apply T.exec_schedule_test_empty|].
      eapply runs_l; [apply T.exec_schedule_none|].
      eapply runs_l; [apply T.exec_schedule_exit|]. apply runs_refl.
    + destruct (heapq.heappop _ _) as [[process queue]|] eqn:Hpop; [|done].
      simpl in Hsched. injection Hsched as <- <- <-.
      eapply runs_l; [by apply T.exec_schedule_test_ready|].
      eapply runs_l; [by apply (T.exec_schedule_pop _ process queue)|].
      eapply runs_l; [by apply (T.exec_schedule_running _ process)|].
      eapply runs_l; [apply T.exec_schedule_print; by eauto|].
      eapply runs_l; [apply T.exec_schedule_exit|]. apply runs_refl.
  - destruct ready as [|r0 ready].
    + by injection Hsched as <- <- <-.
    + destruct (heapq.heappop _ _) as [[process queue]|] eqn:Hpop; [|done].
      simpl in Hsched. by injection Hsched as <- <- <-.
  - eapply runs_l; [apply T.exec_schedule_return | apply runs_refl].
Qed.

Lemma runs_terminate_current_process t s objects' scheduler' r :
  value (PS.terminate_current_process (Kernel.objects (T.kernel s))
           (Kernel.process_scheduler (T.kernel s))) = Ok (objects', scheduler', r) →
  let s' := T.set_kernel (T.set_scheduler objects' scheduler' (T.kernel s)) s in
  T.runs t T.terminate_test s T.terminate_return s' ∧
  T.returns T.terminate_return s' = Some r ∧
  T.runs t T.terminate_return s' T.Idle s'.
Proof.
  destruct s as [[objects memory controller [ready current] running] hi hs].
  simpl. unfold PS.terminate_current_process. simpl.
  destruct current as [process|]; simpl; intros [= <- <- <-].
  - split; [|split; [done|]].
    + eapply runs_l; [apply T.exec_terminate_test_running; by eauto|].
      eapply runs_l; [by apply (T.exec_terminate_state _ process)|].
      eapply runs_l; [apply T.exec_terminate_print; by eauto|].
      eapply runs_l; [apply T.exec_terminate_clear|]. apply runs_refl.
    + eapply runs_l; [apply T.exec_terminate_return | apply runs_refl].
  - split; [|split; [done|]].
    + eapply runs_l; [by apply T.exec_terminate_test_none | apply runs_refl].
    + eapply runs_l; [apply T.exec_terminate_return | apply runs_refl].
Qed.

(** The [return self.running_process] of [schedule_next_process] runs
    after the lock is released.  With processes 0 and 1 ready, thread 0
    schedules process 0 and leaves its block; thread 1 then enters and
    pops process 1 into the running slot.  Thread 1 holds the lock and is
    in the middle of its call while thread 0 is at the return statement,
    which gives back process 1, not the process thread 0 scheduled;
    process 0 is left RUNNING. *)
Lemma schedule_return_after_release :
  let k :=
    Kernel.mk [mkProcess "u-1" "one" 1 "READY"; mkProcess "u-5" "five" 5 "READY"]
      (MM.init 1024) IC.init (PS.mk [0%nat; 1%nat] None) true in
  ∃ c,
    T.reachable k 2 c ∧
    T.threads c = [T.schedule_return; T.schedule_running] ∧
    T.holder (T.state c) T.scheduler_lock = Some 1%nat ∧
    T.returns T.schedule_return (T.state c) = Some (Some 1%nat) ∧
    state (Kernel.objects (T.kernel (T.state c)) !!! 0%nat) = "RUNNING" ∧
    PS.ready_queue (Kernel.process_scheduler (T.kernel (T.state c))) = [].
Proof.
  cbn zeta. eexists. split.
  - unfold T.reachable, T.initial. simpl replicate.
    eapply rtc_l; [by apply (T.step_call 0 T.schedule_next_process)|]. simpl.
    eapply rtc_l.
    { apply (T.step_exec 0 T.schedule_enter); [done|].
      by apply T.exec_schedule_enter. }
    simpl. eapply rtc_l.
    { apply (T.step_exec 0 T.schedule_test); [done|].
      by apply T.exec_schedule_test_ready. }
    simpl. eapply rtc_l.
    { apply (T.step_exec 0 T.schedule_pop); [done|].
      by apply (T.exec_schedule_pop _ 0%nat [1%nat]). }
    simpl. eapply rtc_l.
    { apply (T.step_exec 0 T.schedule_running); [done|].
      by apply (T.exec_schedule_running _ 0%nat). }
    simpl. eapply rtc_l.
    { apply (T.step_exec 0 T.schedule_print); [done|].
      apply T.exec_schedule_print. by eauto. }
    simpl. eapply rtc_l.
    { apply (T.step_exec 0 T.schedule_exit); [done|].
      apply T.exec_schedule_exit. }
    simpl. eapply rtc_l; [by apply (T.step_call 1 T.schedule_next_process)|]. simpl.
    eapply rtc_l.
    { apply (T.step_exec 1 T.schedule_enter); [done|].
      by apply T.exec_schedule_enter. }
    simpl. eapply rtc_l.
    { apply (T.step_exec 1 T.schedule_test); [done|].
      by apply T.exec_schedule_test_ready. }
    simpl. eapply rtc_l.
    { apply (T.step_exec 1 T.schedule_pop); [done|].
      by apply (T.exec_schedule_pop _ 1%nat []). }
    simpl. apply rtc_refl.
  - split; [reflexivity|]. split; [reflexivity|]. split; [reflexivity|].
    split; reflexivity.
Qed.

End thread_facts.

(** ** The claim about locks *)

(** C9, as the claim states it, fails on the memory manager, which has no
    lock: two threads calling [allocate_memory] on a new kernel both pass
    the test before either records its size; both are then in the middle
    of an operation on the manager, and when both have returned [used] is
    1200 in a manager of capacity 1024. *)
Lemma C9_counterexample :
  ∃ c c',
    T.reachable Kernel.init 2 c ∧
    T.threads c = [T.allocate_record "a" 600; T.allocate_record "b" 600] ∧
    rtc T.step c c' ∧
    T.threads c' = [T.Idle; T.Idle] ∧
    MM.used_memory (Kernel.memory_manager (T.kernel (T.state c'))) = 1200 ∧
    MM.total_memory (Kernel.memory_manager (T.kernel (T.state c'))) = 1024.
Proof.
  exists (T.mkConfig (T.mkShared Kernel.init None None)
            [T.allocate_record "a" 600; T.allocate_record "b" 600]).
  eexists. split; [|split; [reflexivity|]].
  - unfold T.reachable, T.initial. simpl replicate.
    eapply rtc_l; [by apply (T.step_call 0 (T.allocate_memory "a" 600))|]. simpl.
    eapply rtc_l; [by apply (T.step_call 1 (T.allocate_memory "b" 600))|]. simpl.
    eapply rtc_l.
    { apply (T.step_exec 0 (T.allocate_test "a" 600)); [done|].
      by apply T.exec_allocate_fits. }
    simpl. eapply rtc_l.
    { apply (T.step_exec 1 (T.allocate_test "b" 600)); [done|].
      by apply T.exec_allocate_fits. }
    simpl. apply rtc_refl.
  - split; [|split; [|split]].
    + eapply rtc_l.
      { apply (T.step_exec 0 (T.allocate_record "a" 600)); [done|].
        apply T.exec_allocate_record. }
      eapply rtc_l.
      { apply (T.step_exec 0 (T.allocate_add 600)); [done|].
        apply T.exec_allocate_add. }
      eapply rtc_l.
      { apply (T.step_exec 1 (T.allocate_record "b" 600)); [done|].
        apply T.exec_allocate_record. }
      eapply rtc_l.
      { apply (T.step_exec 1 (T.allocate_add 600)); [done|].
        apply T.exec_allocate_add. }
      apply rtc_refl.
    + reflexivity.
    + reflexivity.
    + reflexivity.
Qed.

(** C9 (amended): the operations that take their component's lock,
    [add_process] and [schedule_next_process] on the scheduler and
    [raise_interrupt] and [handle_interrupts] on the interrupt controller,
    exclude one another over their [with] blocks, where all their writes
    are: in every configuration that threads calling the kernel's methods
    can reach, a thread at a statement of one of them that touches the
    component, other than the [return self.running_process] that
    [schedule_next_process] runs after its block, holds the component's
    lock, and no other thread is at such a statement on the same
    component. *)
Theorem C9_locked_operations_exclude (k : Kernel.t) (n : nat) (c : T.config)
    (t1 t2 : nat) (p1 p2 : T.pc) (comp : T.component) :
  T.reachable k n c →
  T.threads c !! t1 = Some p1 →
  T.threads c !! t2 = Some p2 →
  T.touches p1 = Some comp →
  T.touches p2 = Some comp →
  comp ≠ T.Memory →
  T.in_terminate p1 = false →
  T.in_terminate p2 = false →
  p1 ≠ T.schedule_return →
  p2 ≠ T.schedule_return →
  ∃ l, T.lock_of comp = Some l ∧ T.holder (T.state c) l = Some t1 ∧ t1 = t2.
Proof.
  intros Hreach Hp1 Hp2 Ht1 Ht2 Hcomp Hn1 Hn2 Hr1 Hr2.
  apply lock_inv_reachable in Hreach.
  destruct (touches_in_with p1 comp Ht1 Hcomp Hn1 Hr1) as [Hw1 [l Hl]].
  destruct (touches_in_with p2 comp Ht2 Hcomp Hn2 Hr2) as [Hw2 _].
  rewrite Hl in Hw1, Hw2.
  pose proof (Hreach t1 p1 l Hp1 Hw1) as Hh1.
  pose proof (Hreach t2 p2 l Hp2 Hw2) as Hh2.
  exists l. split; [done|]. split; [done|]. congruence.
Qed.

Lemma C9_locked_operations_exclude_witness :
  ∃ l, T.lock_of T.Interrupts = Some l ∧
       T.holder
         (T.state (T.mkConfig (T.mkShared Kernel.init (Some 1%nat) None)
                     [T.Idle; T.raise_push 1 7%nat])) l = Some 1%nat ∧
       1%nat = 1%nat.
Proof.
  apply (C9_locked_operations_exclude Kernel.init 2
           (T.mkConfig (T.mkShared Kernel.init (Some 1%nat) None)
              [T.Idle; T.raise_push 1 7%nat])
           1 1 (T.raise_push 1 7%nat) (T.raise_push 1 7%nat) T.Interrupts).
  - unfold T.reachable, T.initial. simpl replicate.
    eapply rtc_l; [by apply (T.step_call 1 (T.raise_interrupt 1 7%nat))|]. simpl.
    eapply rtc_l.
    { apply (T.step_exec 1 (T.raise_enter 1 7%nat)); [done|].
      by apply T.exec_raise_enter. }
    simpl. apply rtc_refl.
  - reflexivity.
  - reflexivity.
  - reflexivity.
  - reflexivity.
  - discriminate.
  - reflexivity.
  - reflexivity.
  - discriminate.
  - discriminate.
Defined.


(** * Further properties of the code *)

(** ** The memory manager *)

(** Allocating for an id that holds no reservation and then deallocating
    it gives back the manager as it was, free memory included. *)
Theorem allocate_then_deallocate (pid : string) (size : Z) (self : MM.t) :
  MM.memory_map self !! pid = None →
  (MM.allocate_memory pid size self).1 = true →
  MM.deallocate_memory pid (MM.allocate_memory pid size self).2 = self ∧
  MM.get_free_memory
    (MM.deallocate_memory pid (MM.allocate_memory pid size self).2) =
    MM.get_free_memory self.
Proof.
  intros Hfresh Hok. apply allocate_memory_true in Hok.
  rewrite allocate_memory_success by done. cbn [snd].
  assert (MM.deallocate_memory pid
            (MM.mk (MM.total_memory self) (MM.used_memory self + size)
                   (<[pid := size]> (MM.memory_map self))) = self) as ->.
  { unfold MM.deallocate_memory. simpl. rewrite lookup_insert_eq.
    rewrite delete_insert_id by done. destruct self as [total used map]. simpl.
    f_equal. lia. }
  done.
Qed.

Lemma allocate_then_deallocate_witness :
  MM.deallocate_memory "p" (MM.allocate_memory "p" 100 (MM.init 1024)).2 =
    MM.init 1024 ∧
  MM.get_free_memory
    (MM.deallocate_memory "p" (MM.allocate_memory "p" 100 (MM.init 1024)).2) =
    MM.get_free_memory (MM.init 1024).
Proof. apply (allocate_then_deallocate "p" 100 (MM.init 1024)); reflexivity. Defined.

(** Deallocating twice is deallocating once: the second call finds no
    reservation and changes nothing, and nothing is subtracted twice. *)
Theorem deallocate_memory_idempotent (pid : string) (self : MM.t) :
  MM.deallocate_memory pid (MM.deallocate_memory pid self) =
    MM.deallocate_memory pid self ∧
  MM.memory_map (MM.deallocate_memory pid self) !! pid = None.
Proof.
  unfold MM.deallocate_memory at 2 3 4.
  destruct (MM.memory_map self !! pid) as [size|] eqn:Hpid.
  - unfold MM.deallocate_memory. simpl. by rewrite lookup_delete_eq.
  - unfold MM.deallocate_memory. by rewrite Hpid.
Qed.

(** Allocating twice for one id loses the first size for good: after the
    id is deallocated the mapping is what it was before the two calls, and
    [used] is still up by the first size, with no reservation left to
    release it. *)
Theorem reallocation_leaks_first_size (pid : string) (a b : Z) (self : MM.t) :
  MM.memory_map self !! pid = None →
  MM.used_memory self + a + b ≤ MM.total_memory self →
  0 ≤ b →
  let twice := (MM.allocate_memory pid b (MM.allocate_memory pid a self).2).2 in
  (MM.allocate_memory pid a self).1 = true ∧
  (MM.allocate_memory pid b (MM.allocate_memory pid a self).2).1 = true ∧
  MM.memory_map (MM.deallocate_memory pid twice) = MM.memory_map self ∧
  MM.used_memory (MM.deallocate_memory pid twice) = MM.used_memory self + a.
Proof.
  intros Hfresh Hfits Hb. cbn zeta.
  rewrite (allocate_memory_success pid a self) by lia. simpl.
  rewrite allocate_memory_success by (simpl; lia). simpl.
  split; [done|]. split; [done|].
  unfold MM.deallocate_memory. simpl. rewrite lookup_insert_eq. simpl.
  rewrite insert_insert_eq, delete_insert_id by done. split; [done | lia].
Qed.

Lemma reallocation_leaks_first_size_witness :
  let twice :=
    (MM.allocate_memory "p" 200 (MM.allocate_memory "p" 100 (MM.init 1024)).2).2 in
  (MM.allocate_memory "p" 100 (MM.init 1024)).1 = true ∧
  (MM.allocate_memory "p" 200 (MM.allocate_memory "p" 100 (MM.init 1024)).2).1 = true ∧
  MM.memory_map (MM.deallocate_memory "p" twice) = MM.memory_map (MM.init 1024) ∧
  MM.used_memory (MM.deallocate_memory "p" twice) = MM.used_memory (MM.init 1024) + 100.
Proof.
  apply (reallocation_leaks_first_size "p" 100 200 (MM.init 1024));
    [reflexivity | simpl; lia | lia].
Defined.

(** ** heapq, whatever the comparison answers *)

Section heap_results.
Context {A : Type} (item_lt : A → A → result bool).

Lemma elem_of_insert_inv (l : list A) i x y :
  y ∈ <[i := x]> l → y = x ∨ y ∈ l.
Proof.
  intros [j Hj]%list_elem_of_lookup. destruct (decide (i = j)) as [->|Hne].
  - destruct (decide (j < length l)%nat) as [Hlt|Hge].
    + rewrite list_lookup_insert_eq in Hj by done. left. congruence.
    + rewrite list_insert_ge in Hj by lia. right. by eapply list_elem_of_lookup_2.
  - rewrite list_lookup_insert_ne in Hj by done. right. by eapply list_elem_of_lookup_2.
Qed.

Lemma getitem_Ok (l : list A) i x : getitem l i = Ok x → l !! i = Some x.
Proof. unfold getitem. destruct (l !! i); by intros [= ->]. Qed.

(** When [_siftdown] returns, the list holds what it held. *)
Lemma _siftdown_loop_perm (newitem : A) (startpos pos : nat) (heap heap' : list A) :
  (pos < length heap)%nat →
  heapq._siftdown_loop item_lt heap newitem startpos pos = Ok heap' →
  heap' ≡ₚ <[pos := newitem]> heap.
Proof.
  revert heap. induction (lt_wf pos) as [pos _ IH]. intros heap Hpos.
  rewrite _siftdown_loop_unfold. destruct (decide _) as [Hlt|]; [|by intros [= <-]].
  destruct (getitem heap _) as [parent|] eqn:Hparent; rsimpl; [|done].
  apply getitem_Ok in Hparent.
  destruct (item_lt newitem parent) as [[]|]; rsimpl; [| by intros [= <-] | done].
  intros Hrec. pose proof (parentpos_lt pos ltac:(lia)) as Hpp.
  apply IH in Hrec; [|done | rewrite length_insert; lia].
  rewrite Hrec.
  rewrite <- (list_insert_insert_eq heap pos parent newitem).
  apply insert_swap_perm.
  - rewrite list_lookup_insert_ne by lia. done.
  - by rewrite list_lookup_insert_eq.
Qed.

(** It returns whenever the item that moves can be compared with every item
    of the list. *)
Lemma _siftdown_loop_returns (newitem : A) (startpos pos : nat) (heap : list A) :
  (pos < length heap)%nat →
  (∀ y, y ∈ heap → ∃ b, item_lt newitem y = Ok b) →
  ∃ heap', heapq._siftdown_loop item_lt heap newitem startpos pos = Ok heap'.
Proof.
  revert heap. induction (lt_wf pos) as [pos _ IH]. intros heap Hpos Hcmp.
  rewrite _siftdown_loop_unfold. destruct (decide _) as [Hlt|]; [|by eexists].
  pose proof (parentpos_lt pos ltac:(lia)) as Hpp.
  destruct (lookup_lt_is_Some_2 heap (heapq.parentpos pos)) as [parent Hparent]; [lia|].
  unfold getitem. rewrite Hparent. rsimpl.
  destruct (Hcmp parent) as [b ->]; [by eapply list_elem_of_lookup_2|]. rsimpl.
  destruct b; [|by eexists].
  apply IH; [done | rewrite length_insert; lia |].
  intros y [->|Hy]%elem_of_insert_inv; apply Hcmp; [|done].
  by eapply list_elem_of_lookup_2.
Qed.

(** When [_siftup] returns, the list holds what it held. *)
Lemma _siftup_loop_perm (newitem : A) (startpos pos : nat) (heap heap' : list A) :
  (pos < length heap)%nat →
  heapq._siftup_loop item_lt heap newitem (length heap) startpos pos = Ok heap' →
  heap' ≡ₚ <[pos := newitem]> heap.
Proof.
  remember (length heap - pos)%nat as n eqn:Hn. revert pos heap Hn.
  induction (lt_wf n) as [n _ IH]. intros pos heap -> Hpos.
  rewrite _siftup_loop_unfold. destruct (decide _) as [Hchild|Hleaf].
  - destruct (heapq.right_child_wins _ _ _ _) as [b|]; rsimpl; [|done]. cbn zeta.
    set (cp := (if b then 2 * pos + 2 else 2 * pos + 1)%nat).
    assert (pos < cp)%nat as Hcp by (subst cp; destruct b; lia).
    destruct (getitem heap cp) as [child|] eqn:Hchildv; rsimpl; [|done].
    apply getitem_Ok in Hchildv.
    pose proof (lookup_lt_Some _ _ _ Hchildv) as Hcplt.
    intros Hrec. rewrite <- (length_insert heap pos child) in Hrec.
    apply (IH (length (<[pos := child]> heap) - cp)%nat) in Hrec;
      [| rewrite length_insert; lia | done | rewrite length_insert; lia].
    rewrite Hrec.
    rewrite <- (list_insert_insert_eq heap pos child newitem).
    apply insert_swap_perm.
    + rewrite list_lookup_insert_ne by lia. done.
    + by rewrite list_lookup_insert_eq.
  - unfold heapq._siftdown, getitem.
    rewrite list_lookup_insert_eq by done. rsimpl.
    intros Hsd. apply _siftdown_loop_perm in Hsd; [|by rewrite length_insert].
    by rewrite list_insert_insert_eq in Hsd.
Qed.

Lemma heappush_perm (heap heap' : list A) (item : A) :
  heapq.heappush item_lt heap item = Ok heap' → heap' ≡ₚ item :: heap.
Proof.
  unfold heapq.heappush, heapq._siftdown. cbn zeta.
  rewrite length_app. simpl length.
  replace (length heap + 1 - 1)%nat with (length heap) by lia.
  assert ((heap ++ [item]) !! length heap = Some item) as Hlast
    by (rewrite lookup_app_r, Nat.sub_diag by lia; done).
  unfold getitem. rewrite Hlast. rsimpl.
  intros Hsd. apply _siftdown_loop_perm in Hsd; [|rewrite length_app; simpl; lia].
  rewrite Hsd, list_insert_id by done. symmetry. apply Permutation_cons_append.
Qed.

Lemma heappop_perm (heap heap' : list A) (item : A) :
  heapq.heappop item_lt heap = Ok (item, heap') → heap ≡ₚ item :: heap'.
Proof.
  unfold heapq.heappop.
  destruct (last heap) as [lastelt|] eqn:Hlast; [|done].
  apply last_Some in Hlast as [front ->]. rewrite removelast_last.
  destruct front as [|returnitem front].
  - by intros [= <- <-].
  - unfold heapq._siftup, getitem. simpl insert. simpl lookup. rsimpl.
    destruct (heapq._siftup_loop _ _ _ _ _ _) as [heap1|] eqn:Hsu; rsimpl; [|done].
    intros [= <- <-].
    apply _siftup_loop_perm in Hsu; [|simpl; lia].
    rewrite Hsu. simpl. constructor. symmetry. apply Permutation_cons_append.
Qed.

End heap_results.

(** ** The interrupt controller *)

Lemma handle_loop_returns_drained invoke (queue queue' : list (Z * handler)) tr :
  IC.handle_loop invoke queue = mkM tr (Ok queue') →
  queue' = [] ∧ IC.calls tr ≡ₚ queue.*2.
Proof.
  remember (length queue) as n eqn:Hn. revert queue tr Hn.
  induction (lt_wf n) as [n _ IH]. intros queue tr ->.
  rewrite handle_loop_unfold. destruct queue as [|entry queue]; [by intros [= <- <-]|].
  destruct (heapq.heappop IC.tuple_lt (entry :: queue)) as [[item rest]|] eqn:Hpop;
    [|done].
  destruct (IC.handle_loop invoke rest) as [tr' [queue''|]] eqn:Hrest; [|done].
  simpl. intros [= <- <-].
  pose proof (heappop_length _ _ _ _ Hpop) as Hlen.
  destruct (IH (length rest) ltac:(lia) rest tr' eq_refl Hrest) as [-> Hcalls].
  split; [done|]. apply heappop_perm in Hpop.
  assert ((entry :: queue).*2 ≡ₚ (item :: rest).*2) as Hp by by rewrite Hpop.
  etrans; [|symmetry; exact Hp].
  unfold IC.calls in *. rewrite omap_app, Hcalls. rewrite fmap_cons.
  unfold IC.guarded_call. by destruct (invoke item.2).
Qed.

(** Whatever the queue holds, ties included: when [handle_interrupts]
    returns without an exception it has called each queued handler once
    and left the queue empty. *)
Theorem handle_interrupts_returns_drained invoke (self self' : IC.t) tr :
  IC.handle_interrupts invoke self = mkM tr (Ok self') →
  self' = IC.init ∧ IC.calls tr ≡ₚ (IC.interrupt_queue self).*2.
Proof.
  unfold IC.handle_interrupts. intros Hrun.
  apply M_bind_Ok_inv in Hrun as (queue' & tr1 & tr2 & Hloop & Hret & ->).
  injection Hret as <- <-.
  apply handle_loop_returns_drained in Hloop as [-> Hcalls].
  by rewrite app_nil_r.
Qed.

Lemma handle_interrupts_returns_drained_witness :
  IC.mk [] = IC.init ∧
  IC.calls [Called 5%nat; Called 7%nat] ≡ₚ
    (IC.interrupt_queue (IC.mk [(1, 5%nat); (3, 7%nat)])).*2.
Proof.
  apply (handle_interrupts_returns_drained (λ _, IC.Returns)
           (IC.mk [(1, 5%nat); (3, 7%nat)])).
  reflexivity.
Defined.

(** [raise_interrupt] returns, and adds exactly the new entry, whenever no
    queued entry has the new priority with another handler, whatever else
    is in the queue: the push compares the new entry only. *)
Theorem raise_interrupt_returns (priority : Z) (h : handler) (self : IC.t) :
  (∀ e, e ∈ IC.interrupt_queue self → e.1 = priority → e.2 = h) →
  ∃ self',
    IC.raise_interrupt priority h self = Ok self' ∧
    IC.interrupt_queue self' ≡ₚ (priority, h) :: IC.interrupt_queue self.
Proof.
  intros Hties. unfold IC.raise_interrupt.
  assert (∃ queue, heapq.heappush IC.tuple_lt (IC.interrupt_queue self) (priority, h) =
                     Ok queue) as [queue Hpush].
  { unfold heapq.heappush, heapq._siftdown. cbn zeta.
    rewrite length_app. simpl length.
    replace (length (IC.interrupt_queue self) + 1 - 1)%nat
      with (length (IC.interrupt_queue self)) by lia.
    unfold getitem. rewrite lookup_app_r, Nat.sub_diag by lia. simpl. rsimpl.
    apply _siftdown_loop_returns; [rewrite length_app; simpl; lia|].
    intros y Hy. unfold IC.tuple_lt. simpl.
    destruct (decide (priority = y.1)) as [Heq|]; [|by eexists].
    rewrite decide_True; [by eexists|].
    apply elem_of_app in Hy as [Hy|Hy%list_elem_of_singleton].
    - symmetry. by apply Hties.
    - by subst y. }
  rewrite Hpush. rsimpl. eexists. split; [done|]. simpl.
  by apply heappush_perm in Hpush.
Qed.

Lemma raise_interrupt_returns_witness :
  ∃ self',
    IC.raise_interrupt 2 9%nat (IC.mk [(1, 5%nat); (3, 7%nat); (3, 8%nat)]) = Ok self' ∧
    IC.interrupt_queue self' ≡ₚ
      (2, 9%nat) :: IC.interrupt_queue (IC.mk [(1, 5%nat); (3, 7%nat); (3, 8%nat)]).
Proof.
  apply (raise_interrupt_returns 2 9%nat (IC.mk [(1, 5%nat); (3, 7%nat); (3, 8%nat)])).
  intros e He Heq. simpl in He.
  repeat (apply elem_of_cons in He as [->|He]); try discriminate.
  by apply elem_of_nil in He.
Defined.

(** ** The scheduler *)

Lemma name_alter (objects : list Process) s (process r : ref) :
  name (alter (set_state s) process objects !!! r) = name (objects !!! r).
Proof.
  rewrite list_lookup_total_alter.
  case_decide as H; [destruct H as [-> _]|]; done.
Qed.

Lemma pid_alter (objects : list Process) s (process r : ref) :
  pid (alter (set_state s) process objects !!! r) = pid (objects !!! r).
Proof.
  rewrite list_lookup_total_alter.
  case_decide as H; [destruct H as [-> _]|]; done.
Qed.

Lemma state_alter (objects : list Process) s (process : ref) :
  (process < length objects)%nat →
  state (alter (set_state s) process objects !!! process) = s.
Proof. intros Hp. by rewrite list_lookup_total_alter_eq. Qed.

(** [add_process] never raises, equal priorities included: the process is
    marked READY and joins the ready queue, which stays a heap by
    priority; no other object and nothing else of the scheduler changes. *)
Theorem add_process_always_succeeds (process : ref) (objects : list Process)
    (self : PS.t) :
  ∃ queue,
    PS.add_process process objects self =
      Ok (alter (set_state "READY") process objects,
          PS.mk queue (PS.running_process self)) ∧
    queue ≡ₚ process :: PS.ready_queue self ∧
    (heap_ordered (prio objects) (PS.ready_queue self) →
     heap_ordered (prio (alter (set_state "READY") process objects)) queue) ∧
    ((process < length objects)%nat →
     state (alter (set_state "READY") process objects !!! process) = "READY") ∧
    (∀ r, r ≠ process →
          alter (set_state "READY") process objects !!! r = objects !!! r).
Proof.
  destruct (add_process_spec process objects self) as (queue & Heq & Hperm & Hord).
  exists queue. split; [done|]. split; [done|]. split; [|split].
  - intros Hheap. eapply heap_ordered_ext; [|by apply Hord].
    intros r _. symmetry. apply prio_alter.
  - apply state_alter.
  - intros r Hr. by rewrite list_lookup_total_alter_ne.
Qed.

(** [terminate_current_process] marks the running process TERMINATED,
    empties the running slot and leaves the ready queue alone; called
    again right away it does nothing and prints nothing. *)
Theorem terminate_current_process_twice (objects : list Process) (self : PS.t) :
  ∃ tr objects',
    PS.terminate_current_process objects self =
      mkM tr (Ok (objects', PS.mk (PS.ready_queue self) None, None)) ∧
    (∀ process,
       PS.running_process self = Some process →
       (process < length objects)%nat →
       state (objects' !!! process) = "TERMINATED") ∧
    (PS.running_process self = None → objects' = objects ∧ tr = []) ∧
    PS.terminate_current_process objects' (PS.mk (PS.ready_queue self) None) =
      mkM [] (Ok (objects', PS.mk (PS.ready_queue self) None, None)).
Proof.
  unfold PS.terminate_current_process. destruct self as [ready [process|]]; simpl.
  - eexists _, _. split; [reflexivity|]. split; [|split; [done|done]].
    intros ? [= <-] Hp. by apply state_alter.
  - eexists _, _. split; [reflexivity|]. done.
Qed.

(** Two calls of [schedule_next_process] with no termination in between
    lose the first process: it is left RUNNING, out of the ready queue and
    out of the running slot, where no later call of the scheduler finds
    it. *)
Theorem schedule_twice_drops_first (objects : list Process) (self : PS.t) :
  reachable objects self →
  NoDup (PS.ready_queue self) →
  (2 ≤ length (PS.ready_queue self))%nat →
  ∃ p q tr1 tr2 objects1 self1 objects2 self2,
    PS.schedule_next_process objects self = mkM tr1 (Ok (objects1, self1, Some p)) ∧
    PS.schedule_next_process objects1 self1 = mkM tr2 (Ok (objects2, self2, Some q)) ∧
    p ≠ q ∧
    PS.running_process self2 = Some q ∧
    (p ∉ PS.ready_queue self2) ∧
    state (objects2 !!! p) = "RUNNING".
Proof.
  intros [Hheap Hwf]%ready_heap_reachable Hnodup Hlen.
  destruct (schedule_next_process_spec objects self) as
    (p & queue1 & Heq1 & Hfirst & Hperm1 & _).
  { intros Hnil. rewrite Hnil in Hlen. simpl in Hlen. lia. }
  pose proof (Permutation_length Hperm1) as Hlen1. simpl in Hlen1.
  destruct (schedule_next_process_spec
              (alter (set_state "RUNNING") p objects) (PS.mk queue1 (Some p)))
    as (q & queue2 & Heq2 & Hfirst2 & Hperm2 & _).
  { simpl. intros ->. simpl in Hlen1. lia. }
  simpl in Hfirst2, Hperm2. rewrite Hperm1 in Hnodup.
  apply NoDup_cons in Hnodup as [Hp Hnodup1].
  assert (q ∈ queue1) as Hq by by eapply list_elem_of_lookup_2.
  assert (p ≠ q) as Hpq by (intros ->; done).
  eexists p, q, _, _, _, _, _, _. split; [exact Heq1|]. split; [exact Heq2|].
  split; [done|]. split; [done|]. split.
  - simpl. intros Hin. apply Hp. rewrite Hperm2. by right.
  - rewrite list_lookup_total_alter_ne by done. apply state_alter.
    apply Hwf. rewrite Hperm1. by left.
Qed.

Lemma schedule_twice_drops_first_witness :
  ∃ p q tr1 tr2 objects1 self1 objects2 self2,
    PS.schedule_next_process
      [mkProcess "u-5" "five" 5 "READY"; mkProcess "u-1" "one" 1 "READY"]
      (PS.mk [1%nat; 0%nat] None) = mkM tr1 (Ok (objects1, self1, Some p)) ∧
    PS.schedule_next_process objects1 self1 = mkM tr2 (Ok (objects2, self2, Some q)) ∧
    p ≠ q ∧
    PS.running_process self2 = Some q ∧
    (p ∉ PS.ready_queue self2) ∧
    state (objects2 !!! p) = "RUNNING".
Proof.
  apply (schedule_twice_drops_first
           [mkProcess "u-5" "five" 5 "READY"; mkProcess "u-1" "one" 1 "READY"]
           (PS.mk [1%nat; 0%nat] None)).
  - apply (reachable_add
             [mkProcess "u-5" "five" 5 "READY"; Process_init "u-1" "one" 1]
             (PS.mk [0%nat] None) 1%nat); [|simpl; lia|reflexivity].
    apply (reachable_new [mkProcess "u-5" "five" 5 "READY"] (PS.mk [0%nat] None)
             "u-1" "one" 1).
    apply (reachable_add [Process_init "u-5" "five" 5] PS.init 0%nat);
      [|simpl; lia|reflexivity].
    apply (reachable_new [] PS.init "u-5" "five" 5). apply reachable_init.
  - simpl. apply NoDup_cons. split.
    + intros H%list_elem_of_singleton. discriminate.
    + apply NoDup_singleton.
  - simpl. lia.
Defined.


(** ** The scheduling loop *)

Lemma turn_lines_alter (objects : list Process) s (process r : ref) :
  turn_lines (alter (set_state s) process objects) r = turn_lines objects r.
Proof. unfold turn_lines. by rewrite !name_alter, !pid_alter. Qed.

(** A turn of the loop on a ready queue that is not empty. *)
Lemma _scheduler_loop_body_turn (self : Kernel.t) :
  PS.ready_queue (Kernel.process_scheduler self) ≠ [] →
  ∃ p queue,
    Kernel._scheduler_loop_body self =
      mkM (turn_lines (Kernel.objects self) p)
          (Ok (Kernel.mk
                 (alter (set_state "TERMINATED") p
                    (alter (set_state "RUNNING") p (Kernel.objects self)))
                 (Kernel.memory_manager self)
                 (Kernel.interrupt_controller self)
                 (PS.mk queue None)
                 (Kernel.running self))) ∧
    PS.ready_queue (Kernel.process_scheduler self) ≡ₚ p :: queue ∧
    (heap_ordered (prio (Kernel.objects self))
       (PS.ready_queue (Kernel.process_scheduler self)) →
     heap_ordered (prio (Kernel.objects self)) queue ∧
     ∀ r, r ∈ PS.ready_queue (Kernel.process_scheduler self) →
          prio (Kernel.objects self) p ≤ prio (Kernel.objects self) r).
Proof.
  intros Hne. unfold Kernel._scheduler_loop_body.
  destruct (schedule_next_process_spec (Kernel.objects self) _ Hne)
    as (p & queue & -> & _ & Hperm & Hord).
  exists p, queue. split; [|done].
  unfold mbind, M_bind, PS.terminate_current_process, turn_lines. simpl.
  by rewrite !name_alter, !pid_alter.
Qed.

Lemma StronglySorted_ext {A} (R R' : A → A → Prop) (l : list A) :
  (∀ a b, R a b → R' a b) → StronglySorted R l → StronglySorted R' l.
Proof.
  intros Himpl. induction 1 as [|a l _ IH Hall]; constructor; [done|].
  eapply Forall_impl; [exact Hall|]. intros b. apply Himpl.
Qed.

Lemma _scheduler_loop_drains (n : nat) (self : Kernel.t) :
  Kernel.running self = true →
  ready_heap (Kernel.objects self) (Kernel.process_scheduler self) →
  length (PS.ready_queue (Kernel.process_scheduler self)) = n →
  ∃ sorted self',
    Kernel._scheduler_loop n self =
      mkM (flat_map (turn_lines (Kernel.objects self)) sorted) (Ok self') ∧
    sorted ≡ₚ PS.ready_queue (Kernel.process_scheduler self) ∧
    StronglySorted (λ a b, prio (Kernel.objects self) a ≤ prio (Kernel.objects self) b)
      sorted ∧
    PS.ready_queue (Kernel.process_scheduler self') = [] ∧
    Kernel.memory_manager self' = Kernel.memory_manager self ∧
    Kernel.interrupt_controller self' = Kernel.interrupt_controller self ∧
    length (Kernel.objects self') = length (Kernel.objects self) ∧
    (∀ r, r ∈ PS.ready_queue (Kernel.process_scheduler self) →
          state (Kernel.objects self' !!! r) = "TERMINATED") ∧
    (∀ r, r ∉ PS.ready_queue (Kernel.process_scheduler self) →
          Kernel.objects self' !!! r = Kernel.objects self !!! r).
Proof.
  revert self. induction n as [|n IH]; intros self Hrun [Hheap Hwf] Hlen.
  - apply nil_length_inv in Hlen. exists [], self. simpl.
    split; [done|]. split; [by rewrite Hlen|]. split; [constructor|].
    split; [done|]. split; [done|]. split; [done|]. split; [done|].
    split; [|done]. intros r Hr. rewrite Hlen in Hr. by apply elem_of_nil in Hr.
  - destruct (_scheduler_loop_body_turn self) as (p & queue & Hbody & Hperm & Hord).
    { intros Hnil. rewrite Hnil in Hlen. done. }
    destruct (Hord Hheap) as [Hheap' Hleast].
    set (objects1 := alter (set_state "TERMINATED") p
                       (alter (set_state "RUNNING") p (Kernel.objects self))) in *.
    assert (∀ r, prio objects1 r = prio (Kernel.objects self) r) as Hprio
      by (intros r; unfold objects1; by rewrite !prio_alter).
    assert (length objects1 = length (Kernel.objects self)) as Hlen1
      by (unfold objects1; by rewrite !length_alter).
    assert (p ∈ PS.ready_queue (Kernel.process_scheduler self)) as Hp
      by (rewrite Hperm; by left).
    assert (state (objects1 !!! p) = "TERMINATED") as Hpstate.
    { unfold objects1. apply state_alter. rewrite length_alter. by apply Hwf. }
    assert (∀ r, r ≠ p → objects1 !!! r = Kernel.objects self !!! r) as Hother.
    { intros r Hr. unfold objects1. by rewrite !list_lookup_total_alter_ne. }
    assert (∀ r, turn_lines objects1 r = turn_lines (Kernel.objects self) r) as Hlines.
    { intros r. unfold objects1. by rewrite !turn_lines_alter. }
    clearbody objects1.
    destruct (IH (Kernel.mk objects1 (Kernel.memory_manager self)
                    (Kernel.interrupt_controller self) (PS.mk queue None)
                    (Kernel.running self)))
      as (sorted & self' & Hloop & Hsorted & Hasc & Hempty & Hmem & Hic & Hlen' &
          Hterm & Hframe).
    + done.
    + simpl. split.
      * eapply heap_ordered_ext; [|exact Hheap']. intros r _. symmetry. apply Hprio.
      * intros r Hr. rewrite Hlen1. apply Hwf. rewrite Hperm. by right.
    + simpl. apply Permutation_length in Hperm. simpl in Hperm. lia.
    + simpl in *. exists (p :: sorted), self'.
      split.
      { rewrite Hrun, Hbody. unfold mbind, M_bind. simpl. rewrite Hloop. simpl.
        do 3 f_equal. apply flat_map_ext. intros r. apply Hlines. }
      split; [by rewrite Hperm, Hsorted|]. split.
      { constructor.
        - eapply StronglySorted_ext; [|exact Hasc]. intros a b. simpl.
          by rewrite !Hprio.
        - apply Forall_forall. intros r Hr. apply Hleast. rewrite Hperm. right.
          by rewrite <- Hsorted. }
      split; [done|]. split; [done|]. split; [done|]. split; [congruence|].
      split.
      { intros r Hr. destruct (decide (r ∈ queue)) as [Hin|Hnin]; [by apply Hterm|].
        rewrite Hperm in Hr. apply elem_of_cons in Hr as [->|Hr]; [|done].
        by rewrite Hframe. }
      { intros r Hr. rewrite Hframe.
        - apply Hother. intros ->. by apply Hr.
        - intros Hin. apply Hr. rewrite Hperm. by right. }
Qed.

(** On a started kernel, as many turns of the scheduling loop as there are
    ready processes run them all, in ascending order of priority: the two
    lines of each are printed in that order, the ready queue ends empty,
    every one of them ends TERMINATED, and no other object, nor the memory
    manager, nor the interrupt controller changes. *)
Theorem scheduler_loop_runs_all_ready (self : Kernel.t) :
  Kernel.running self = true →
  reachable (Kernel.objects self) (Kernel.process_scheduler self) →
  ∃ sorted self',
    Kernel._scheduler_loop
      (length (PS.ready_queue (Kernel.process_scheduler self))) self =
      mkM (flat_map (turn_lines (Kernel.objects self)) sorted) (Ok self') ∧
    sorted ≡ₚ PS.ready_queue (Kernel.process_scheduler self) ∧
    StronglySorted (λ a b, prio (Kernel.objects self) a ≤ prio (Kernel.objects self) b)
      sorted ∧
    PS.ready_queue (Kernel.process_scheduler self') = [] ∧
    Kernel.memory_manager self' = Kernel.memory_manager self ∧
    Kernel.interrupt_controller self' = Kernel.interrupt_controller self ∧
    (∀ r, r ∈ PS.ready_queue (Kernel.process_scheduler self) →
          state (Kernel.objects self' !!! r) = "TERMINATED") ∧
    (∀ r, r ∉ PS.ready_queue (Kernel.process_scheduler self) →
          Kernel.objects self' !!! r = Kernel.objects self !!! r).
Proof.
  intros Hrun Hreach%ready_heap_reachable.
  destruct (_scheduler_loop_drains _ self Hrun Hreach eq_refl)
    as (sorted & self' & ? & ? & ? & ? & ? & ? & _ & ? & ?).
  by exists sorted, self'.
Qed.

Lemma scheduler_loop_runs_all_ready_witness :
  let self :=
    Kernel.mk [mkProcess "u-5" "five" 5 "READY"; mkProcess "u-1" "one" 1 "READY"]
      (MM.init 1024) IC.init (PS.mk [1%nat; 0%nat] None) true in
  ∃ sorted self',
    Kernel._scheduler_loop
      (length (PS.ready_queue (Kernel.process_scheduler self))) self =
      mkM (flat_map (turn_lines (Kernel.objects self)) sorted) (Ok self') ∧
    sorted ≡ₚ PS.ready_queue (Kernel.process_scheduler self) ∧
    StronglySorted (λ a b, prio (Kernel.objects self) a ≤ prio (Kernel.objects self) b)
      sorted ∧
    PS.ready_queue (Kernel.process_scheduler self') = [] ∧
    Kernel.memory_manager self' = Kernel.memory_manager self ∧
    Kernel.interrupt_controller self' = Kernel.interrupt_controller self ∧
    (∀ r, r ∈ PS.ready_queue (Kernel.process_scheduler self) →
          state (Kernel.objects self' !!! r) = "TERMINATED") ∧
    (∀ r, r ∉ PS.ready_queue (Kernel.process_scheduler self) →
          Kernel.objects self' !!! r = Kernel.objects self !!! r).
Proof.
  apply (scheduler_loop_runs_all_ready
           (Kernel.mk [mkProcess "u-5" "five" 5 "READY"; mkProcess "u-1" "one" 1 "READY"]
              (MM.init 1024) IC.init (PS.mk [1%nat; 0%nat] None) true)).
  - reflexivity.
  - simpl.
    apply (reachable_add
             [mkProcess "u-5" "five" 5 "READY"; Process_init "u-1" "one" 1]
             (PS.mk [0%nat] None) 1%nat); [|simpl; lia|reflexivity].
    apply (reachable_new [mkProcess "u-5" "five" 5 "READY"] (PS.mk [0%nat] None)
             "u-1" "one" 1).
    apply (reachable_add [Process_init "u-5" "five" 5] PS.init 0%nat);
      [|simpl; lia|reflexivity].
    apply (reachable_new [] PS.init "u-5" "five" 5). apply reachable_init.
Defined.

(** ** The kernel and its memory *)

Lemma create_process_cases (uuid name : string) (priority memory_required : Z)
    (self : Kernel.t) :
  (¬ MM.used_memory (Kernel.memory_manager self) + memory_required ≤
       MM.total_memory (Kernel.memory_manager self) ∧
   Kernel.create_process uuid name priority memory_required self =
     mkM [Printed ("Failed to create process " +:+ name +:+ ": Insufficient memory")]
         (Ok (None, self))) ∨
  (MM.used_memory (Kernel.memory_manager self) + memory_required ≤
     MM.total_memory (Kernel.memory_manager self) ∧
   ∃ queue,
     queue ≡ₚ length (Kernel.objects self) ::
                PS.ready_queue (Kernel.process_scheduler self) ∧
     Kernel.create_process uuid name priority memory_required self =
       mkM []
         (Ok (Some (length (Kernel.objects self)),
              Kernel.mk
                (Kernel.objects self ++ [mkProcess uuid name priority "READY"])
                (MM.mk (MM.total_memory (Kernel.memory_manager self))
                       (MM.used_memory (Kernel.memory_manager self) + memory_required)
                       (<[uuid := memory_required]>
                          (MM.memory_map (Kernel.memory_manager self))))
                (Kernel.interrupt_controller self)
                (PS.mk queue (PS.running_process (Kernel.process_scheduler self)))
                (Kernel.running self)))).
Proof.
  destruct (decide (MM.used_memory (Kernel.memory_manager self) + memory_required ≤
                    MM.total_memory (Kernel.memory_manager self))) as [Hfits|Hfull];
    [right | left]; (split; [done|]); unfold Kernel.create_process; cbn zeta.
  - rewrite allocate_memory_success by done.
    destruct (add_process_spec (length (Kernel.objects self))
                (Kernel.objects self ++ [Process_init uuid name priority])
                (Kernel.process_scheduler self)) as (queue & -> & Hperm & _).
    exists queue. split; [done|]. unfold lift, mbind, M_bind. simpl.
    rewrite alter_app_r_alt by done. by rewrite Nat.sub_diag.
  - rewrite allocate_memory_failure by done. done.
Qed.

Lemma kernel_step_memory invoke c self tr self' :
  nonneg_request c →
  kernel_step invoke c self = mkM tr (Ok self') →
  MM.total_memory (Kernel.memory_manager self') =
    MM.total_memory (Kernel.memory_manager self) ∧
  MM.used_memory (Kernel.memory_manager self) ≤
    MM.used_memory (Kernel.memory_manager self') ∧
  ∀ pid, is_Some (MM.memory_map (Kernel.memory_manager self) !! pid) →
         is_Some (MM.memory_map (Kernel.memory_manager self') !! pid).
Proof.
  intros Hc Hstep. destruct c as [uuid nm pr memory_required| |];
    unfold kernel_step in Hstep; simpl in Hc.
  - apply M_bind_Ok_inv in Hstep as ([r k] & tr1 & tr2 & Hcreate & Hret & _).
    injection Hret as _ <-.
    destruct (create_process_cases uuid nm pr memory_required self)
      as [(_ & Hfail)|(_ & queue & _ & Hok)].
    + rewrite Hfail in Hcreate. injection Hcreate as _ _ <-. done.
    + rewrite Hok in Hcreate. injection Hcreate as _ _ <-. simpl.
      split; [done|]. split; [lia|]. intros pid Hpid.
      destruct (decide (uuid = pid)) as [->|Hne].
      * rewrite lookup_insert_eq. by eexists.
      * by rewrite lookup_insert_ne.
  - apply _scheduler_loop_memory in Hstep. rewrite Hstep. done.
  - unfold Kernel._interrupt_loop_body in Hstep.
    apply M_bind_Ok_inv in Hstep as (c & tr1 & tr2 & _ & Hret & _).
    injection Hret as _ <-. done.
Qed.

(** No call on the kernel and no turn of its loops gives memory back:
    over any sequence of [create_process] calls with requests that are not
    negative and of turns of the two loops, the capacity stays, [used]
    never goes down, no reservation disappears, and a request that did
    not fit before does not fit after. *)
Theorem kernel_never_releases_memory (invoke : handler → IC.outcome)
    (cs : list kernel_call) (self self' : Kernel.t) (tr : list event) :
  Forall nonneg_request cs →
  kernel_run invoke cs self = mkM tr (Ok self') →
  MM.total_memory (Kernel.memory_manager self') =
    MM.total_memory (Kernel.memory_manager self) ∧
  MM.used_memory (Kernel.memory_manager self) ≤
    MM.used_memory (Kernel.memory_manager self') ∧
  (∀ pid, is_Some (MM.memory_map (Kernel.memory_manager self) !! pid) →
          is_Some (MM.memory_map (Kernel.memory_manager self') !! pid)) ∧
  (∀ uuid name priority memory_required,
     ¬ MM.used_memory (Kernel.memory_manager self) + memory_required ≤
         MM.total_memory (Kernel.memory_manager self) →
     value (Kernel.create_process uuid name priority memory_required self') =
       Ok (None, self')).
Proof.
  intros Hcs Hrun.
  assert (MM.total_memory (Kernel.memory_manager self') =
            MM.total_memory (Kernel.memory_manager self) ∧
          MM.used_memory (Kernel.memory_manager self) ≤
            MM.used_memory (Kernel.memory_manager self') ∧
          (∀ pid, is_Some (MM.memory_map (Kernel.memory_manager self) !! pid) →
                  is_Some (MM.memory_map (Kernel.memory_manager self') !! pid)))
    as (Htotal & Hused & Hkeep).
  { revert self tr Hrun. induction Hcs as [|c cs Hc _ IH]; intros self tr Hrun.
    - simpl in Hrun. by injection Hrun as _ <-.
    - simpl in Hrun.
      apply M_bind_Ok_inv in Hrun as (mid & tr1 & tr2 & Hstep & Hrest & _).
      destruct (kernel_step_memory _ _ _ _ _ Hc Hstep) as (Ht1 & Hu1 & Hk1).
      destruct (IH _ _ Hrest) as (Ht2 & Hu2 & Hk2).
      split; [congruence|]. split; [lia|]. intros pid Hpid. by apply Hk2, Hk1. }
  split; [done|]. split; [done|]. split; [done|].
  intros uuid nm pr memory_required Hfull.
  destruct (create_process_cases uuid nm pr memory_required self')
    as [(_ & ->)|(Hfits & _)]; [done | lia].
Qed.

Lemma kernel_never_releases_memory_witness :
  let self := Kernel.start Kernel.init in
  ∃ self',
    MM.total_memory (Kernel.memory_manager self') =
      MM.total_memory (Kernel.memory_manager self) ∧
    MM.used_memory (Kernel.memory_manager self) ≤
      MM.used_memory (Kernel.memory_manager self') ∧
    (∀ pid, is_Some (MM.memory_map (Kernel.memory_manager self) !! pid) →
            is_Some (MM.memory_map (Kernel.memory_manager self') !! pid)) ∧
    (∀ uuid name priority memory_required,
       ¬ MM.used_memory (Kernel.memory_manager self) + memory_required ≤
           MM.total_memory (Kernel.memory_manager self) →
       value (Kernel.create_process uuid name priority memory_required self') =
         Ok (None, self')).
Proof.
  eexists.
  eapply (kernel_never_releases_memory (λ _, IC.Returns)
            [call_create_process "u-1" "job" 0 100; call_scheduler_turn;
             call_interrupt_turn]
            (Kernel.start Kernel.init)).
  - repeat constructor. simpl. lia.
  - vm_compute. reflexivity.
Defined.

(** ** Dicts *)

Section pydict_facts.
Context {V : Type}.
Implicit Types (d : list (string * V)) (k : string) (v : V).

Lemma contains_get k d : pydict.contains k d = true ↔ is_Some (pydict.get k d).
Proof. unfold pydict.contains. apply bool_decide_eq_true. Qed.

Lemma contains_false k d : pydict.contains k d = false ↔ pydict.get k d = None.
Proof.
  unfold pydict.contains. rewrite bool_decide_eq_false.
  by rewrite eq_None_not_Some.
Qed.

Lemma get_setitem_eq k v d : pydict.get k (pydict.setitem k v d) = Some v.
Proof.
  induction d as [|[k' v'] d IH]; simpl.
  - by rewrite decide_True.
  - destruct (decide (k = k')) as [->|Hne]; simpl.
    + by rewrite decide_True.
    + by rewrite decide_False.
Qed.

Lemma get_setitem_ne k k' v d :
  k ≠ k' → pydict.get k' (pydict.setitem k v d) = pydict.get k' d.
Proof.
  intros Hne. induction d as [|[k'' v''] d IH]; simpl.
  - by rewrite decide_False.
  - destruct (decide (k = k'')) as [->|Hne']; simpl.
    + by rewrite !decide_False.
    + destruct (decide (k' = k'')); done.
Qed.

Lemma setitem_new k v d :
  pydict.get k d = None → pydict.setitem k v d = d ++ [(k, v)].
Proof.
  induction d as [|[k' v'] d IH]; simpl; [done|].
  destruct (decide (k = k')); [done|]. intros Hd. by rewrite IH.
Qed.

Lemma get_delitem_eq k d : pydict.get k (pydict.delitem k d) = None.
Proof.
  unfold pydict.delitem. induction d as [|[k' v'] d IH]; simpl; [done|].
  rewrite filter_cons. simpl. destruct (decide (k' ≠ k)) as [Hne|Heq]; simpl; [|done].
  by rewrite decide_False.
Qed.

Lemma get_delitem_ne k k' d :
  k ≠ k' → pydict.get k' (pydict.delitem k d) = pydict.get k' d.
Proof.
  intros Hne. unfold pydict.delitem. induction d as [|[k'' v''] d IH]; simpl; [done|].
  rewrite filter_cons. simpl. destruct (decide (k'' ≠ k)) as [Hne'|Heq]; simpl.
  - by rewrite IH.
  - apply dec_stable in Heq. subst k''. by rewrite decide_False.
Qed.

Lemma delitem_absent k d : pydict.get k d = None → pydict.delitem k d = d.
Proof.
  unfold pydict.delitem. induction d as [|[k' v'] d IH]; simpl; [done|].
  destruct (decide (k = k')) as [->|Hne]; [done|]. intros Hd.
  rewrite filter_cons. simpl. rewrite decide_True by done. by rewrite IH.
Qed.

Lemma delitem_setitem_new k v d :
  pydict.get k d = None → pydict.delitem k (pydict.setitem k v d) = d.
Proof.
  intros Hd. rewrite setitem_new by done. unfold pydict.delitem.
  rewrite filter_app. simpl. rewrite filter_cons. simpl.
  rewrite decide_False by (intros H; by apply H). rewrite filter_nil, app_nil_r.
  by apply delitem_absent.
Qed.

Lemma keys_delitem k d :
  pydict.keys (pydict.delitem k d) = filter (λ k', k' ≠ k) (pydict.keys d).
Proof.
  unfold pydict.keys, pydict.delitem. induction d as [|[k' v'] d IH]; simpl; [done|].
  rewrite !filter_cons. simpl. destruct (decide (k' ≠ k)); simpl; [f_equal|]; exact IH.
Qed.

End pydict_facts.

(** ** The file system *)

Lemma lookup_total_new (objects : list Process) (p : Process) :
  (objects ++ [p]) !!! length objects = p.
Proof. rewrite lookup_total_app_r by done. by rewrite Nat.sub_diag. Qed.

(** [create_file] for a name that is free, when the memory fits. *)
Lemma create_file_fits uuid_fs uuid filename content memory_required kernel self :
  pydict.get filename (FS.files self) = None →
  MM.used_memory (Kernel.memory_manager kernel) + memory_required ≤
    MM.total_memory (Kernel.memory_manager kernel) →
  ∃ queue,
    queue ≡ₚ length (Kernel.objects kernel) ::
               PS.ready_queue (Kernel.process_scheduler kernel) ∧
    FS.create_file uuid_fs uuid filename content memory_required kernel self =
      mkM [Printed ("File " +:+ filename +:+ " created successfully.")]
        (Ok (Some uuid,
             Kernel.mk
               (Kernel.objects kernel ++
                  [mkProcess uuid ("Create file - " +:+ filename) 5 "READY"])
               (MM.mk (MM.total_memory (Kernel.memory_manager kernel))
                      (MM.used_memory (Kernel.memory_manager kernel) + memory_required)
                      (<[uuid := memory_required]>
                         (MM.memory_map (Kernel.memory_manager kernel))))
               (Kernel.interrupt_controller kernel)
               (PS.mk queue (PS.running_process (Kernel.process_scheduler kernel)))
               (Kernel.running kernel),
             FS.mk (FS.files self ++
                      [(filename,
                        FS.mkInfo content (Z.of_nat (String.length content))
                                  (Some uuid))])
                   (Some (FS.files self ++
                            [(filename,
                              FS.mkInfo content (Z.of_nat (String.length content))
                                        (Some uuid))])))).
Proof.
  intros Hfree Hfits. unfold FS.create_file.
  rewrite (proj2 (contains_false _ _)) by done. cbn zeta.
  destruct (create_process_cases uuid ("Create file - " +:+ filename) 5
              memory_required kernel) as [(Hfull & _)|(_ & queue & Hperm & Hok)];
    [done|].
  exists queue. split; [done|].
  unfold FS._create_file_process, FS.FileSystemProcess_init. simpl.
  rewrite Hok. unfold mbind, M_bind. simpl.
  rewrite lookup_total_new. simpl. by rewrite setitem_new.
Qed.

(** [create_file]: a name that is taken is left alone, whatever is asked;
    a request that does not fit leaves the files, the storage and the
    kernel as they were; otherwise the id of the new process is returned,
    the file reads back with its content, is listed last, and lies in the
    storage, no other file changes, and the kernel holds a READY process
    of priority 5 with the requested memory reserved under the id. *)
Theorem create_file_outcomes (uuid_fs uuid filename content : string)
    (memory_required : Z) (kernel : Kernel.t) (self : FS.t) :
  (is_Some (pydict.get filename (FS.files self)) →
   value (FS.create_file uuid_fs uuid filename content memory_required kernel self) =
     Ok (None, kernel, self)) ∧
  (pydict.get filename (FS.files self) = None →
   ¬ MM.used_memory (Kernel.memory_manager kernel) + memory_required ≤
       MM.total_memory (Kernel.memory_manager kernel) →
   value (FS.create_file uuid_fs uuid filename content memory_required kernel self) =
     Ok (None, kernel, self)) ∧
  (pydict.get filename (FS.files self) = None →
   MM.used_memory (Kernel.memory_manager kernel) + memory_required ≤
     MM.total_memory (Kernel.memory_manager kernel) →
   ∃ kernel' self',
     value (FS.create_file uuid_fs uuid filename content memory_required kernel self) =
       Ok (Some uuid, kernel', self') ∧
     FS.read_file filename self' = Some content ∧
     (∀ other, other ≠ filename → FS.read_file other self' = FS.read_file other self) ∧
     FS.list_files self' = FS.list_files self ++ [filename] ∧
     FS.storage self' = Some (FS.files self') ∧
     MM.memory_map (Kernel.memory_manager kernel') !! uuid = Some memory_required ∧
     MM.get_free_memory (Kernel.memory_manager kernel') =
       MM.get_free_memory (Kernel.memory_manager kernel) - memory_required ∧
     Kernel.objects kernel' !!! length (Kernel.objects kernel) =
       mkProcess uuid ("Create file - " +:+ filename) 5 "READY" ∧
     length (Kernel.objects kernel) ∈ PS.ready_queue (Kernel.process_scheduler kernel')).
Proof.
  split; [|split].
  - intros Htaken. unfold FS.create_file.
    by rewrite (proj2 (contains_get _ _)) by done.
  - intros Hfree Hfull. unfold FS.create_file.
    rewrite (proj2 (contains_false _ _)) by done. cbn zeta.
    destruct (create_process_cases uuid ("Create file - " +:+ filename) 5
                memory_required kernel) as [(_ & Hfail)|(Hfits & _)]; [|done].
    unfold FS._create_file_process, FS.FileSystemProcess_init. simpl.
    by rewrite Hfail.
  - intros Hfree Hfits.
    destruct (create_file_fits uuid_fs uuid filename content memory_required
                kernel self Hfree Hfits) as (queue & Hperm & ->).
    eexists _, _. split; [reflexivity|]. unfold FS.read_file, FS.list_files. simpl.
    rewrite <- (setitem_new filename _ (FS.files self)) by done.
    split; [by rewrite get_setitem_eq|].
    split; [intros other Hne; by rewrite get_setitem_ne|].
    rewrite setitem_new by done.
    split; [unfold pydict.keys; by rewrite fmap_app|].
    split; [done|]. split; [by rewrite lookup_insert_eq|].
    split; [unfold MM.get_free_memory; simpl; lia|].
    split; [apply lookup_total_new|]. rewrite Hperm. by left.
Qed.

(** [remove_file]: for a name the file system does not hold it returns
    [False] and changes nothing; otherwise it returns the file's
    ['process_id'], the file no longer reads nor is listed, no other file
    changes, the storage holds the new files, and the reservation under the
    id, when the id is a string that is not empty, is released. *)
Theorem remove_file_outcomes (filename : string) (kernel : Kernel.t) (self : FS.t) :
  (pydict.get filename (FS.files self) = None →
   FS.remove_file filename kernel self = mkM [] (Ok (FS.NotThere, kernel, self))) ∧
  (∀ file_info,
     pydict.get filename (FS.files self) = Some file_info →
     ∃ kernel' self',
       FS.remove_file filename kernel self =
         mkM [Printed ("File " +:+ filename +:+ " removed successfully.")]
             (Ok (FS.ProcessId (FS.process_id file_info), kernel', self')) ∧
       FS.read_file filename self' = None ∧
       (∀ other, other ≠ filename → FS.read_file other self' = FS.read_file other self) ∧
       FS.list_files self' = filter (λ k, k ≠ filename) (FS.list_files self) ∧
       FS.storage self' = Some (FS.files self') ∧
       Kernel.memory_manager kernel' =
         (if FS.truthy (FS.process_id file_info)
          then MM.deallocate_memory (default "" (FS.process_id file_info))
                 (Kernel.memory_manager kernel)
          else Kernel.memory_manager kernel) ∧
       Kernel.process_scheduler kernel' = Kernel.process_scheduler kernel ∧
       Kernel.objects kernel' = Kernel.objects kernel).
Proof.
  split.
  - intros Hnone. unfold FS.remove_file. by rewrite Hnone.
  - intros file_info Hsome. unfold FS.remove_file. rewrite Hsome. cbn zeta.
    eexists _, _. split; [reflexivity|]. unfold FS.read_file, FS.list_files. simpl.
    split; [by rewrite get_delitem_eq|].
    split; [intros other Hne; by rewrite get_delitem_ne|].
    split; [apply keys_delitem|]. split; [done|].
    destruct (FS.truthy (FS.process_id file_info)); done.
Qed.

(** Creating a file and removing it again gives back the files and the
    memory manager as they were, but not the scheduler: the process made
    for the file is still in the ready queue. *)
Theorem create_then_remove_file (uuid_fs uuid filename content : string)
    (memory_required : Z) (kernel : Kernel.t) (self : FS.t) :
  pydict.get filename (FS.files self) = None →
  MM.memory_map (Kernel.memory_manager kernel) !! uuid = None →
  uuid ≠ "" →
  MM.used_memory (Kernel.memory_manager kernel) + memory_required ≤
    MM.total_memory (Kernel.memory_manager kernel) →
  ∃ kernel1 self1 kernel2 self2,
    value (FS.create_file uuid_fs uuid filename content memory_required kernel self) =
      Ok (Some uuid, kernel1, self1) ∧
    value (FS.remove_file filename kernel1 self1) =
      Ok (FS.ProcessId (Some uuid), kernel2, self2) ∧
    FS.files self2 = FS.files self ∧
    FS.storage self2 = Some (FS.files self) ∧
    Kernel.memory_manager kernel2 = Kernel.memory_manager kernel ∧
    length (Kernel.objects kernel) ∈ PS.ready_queue (Kernel.process_scheduler kernel2) ∧
    Kernel.objects kernel2 !!! length (Kernel.objects kernel) =
      mkProcess uuid ("Create file - " +:+ filename) 5 "READY".
Proof.
  intros Hfree Hfresh Huuid Hfits.
  destruct (create_file_fits uuid_fs uuid filename content memory_required
              kernel self Hfree Hfits) as (queue & Hperm & ->).
  assert (FS.truthy (Some uuid) = true) as Htruthy.
  { simpl. apply negb_true_iff. by apply String.eqb_neq. }
  eexists _, _, _, _. split; [reflexivity|].
  unfold FS.remove_file. simpl FS.files.
  rewrite <- (setitem_new filename _ (FS.files self)) by done.
  rewrite get_setitem_eq. cbn zeta. simpl FS.process_id. rewrite Htruthy.
  split; [reflexivity|]. simpl.
  rewrite delitem_setitem_new by done. split; [done|]. split; [done|].
  split.
  - unfold MM.deallocate_memory. simpl. rewrite lookup_insert_eq.
    rewrite delete_insert_id by done.
    destruct (Kernel.memory_manager kernel) as [total used map]. simpl.
    f_equal. lia.
  - split; [rewrite Hperm; by left | apply lookup_total_new].
Qed.

Lemma create_then_remove_file_witness :
  ∃ kernel1 self1 kernel2 self2,
    value (FS.create_file "u-0" "u-1" "a.txt" "hello" 100
             (Kernel.start Kernel.init) (FS.init None)) =
      Ok (Some "u-1", kernel1, self1) ∧
    value (FS.remove_file "a.txt" kernel1 self1) =
      Ok (FS.ProcessId (Some "u-1"), kernel2, self2) ∧
    FS.files self2 = FS.files (FS.init None) ∧
    FS.storage self2 = Some (FS.files (FS.init None)) ∧
    Kernel.memory_manager kernel2 = Kernel.memory_manager (Kernel.start Kernel.init) ∧
    length (Kernel.objects (Kernel.start Kernel.init)) ∈
      PS.ready_queue (Kernel.process_scheduler kernel2) ∧
    Kernel.objects kernel2 !!! length (Kernel.objects (Kernel.start Kernel.init)) =
      mkProcess "u-1" ("Create file - " +:+ "a.txt") 5 "READY".
Proof.
  apply (create_then_remove_file "u-0" "u-1" "a.txt" "hello" 100
           (Kernel.start Kernel.init) (FS.init None)).
  - reflexivity.
  - reflexivity.
  - discriminate.
  - vm_compute. discriminate.
Defined.

(** [rename_file] goes through exactly when the old name is held and the
    new one is not (so never onto itself); it then moves the file, content,
    size and process id, to the new name at the end of the listing, saves,
    and changes no other file; otherwise it changes nothing. *)
Theorem rename_file_outcomes (old_name new_name : string) (self : FS.t) :
  ((FS.rename_file old_name new_name self).1 = true ↔
     is_Some (pydict.get old_name (FS.files self)) ∧
     pydict.get new_name (FS.files self) = None) ∧
  ((FS.rename_file old_name new_name self).1 = false →
   (FS.rename_file old_name new_name self).2 = self) ∧
  ((FS.rename_file old_name new_name self).1 = true →
   let self' := (FS.rename_file old_name new_name self).2 in
   old_name ≠ new_name ∧
   pydict.get new_name (FS.files self') = pydict.get old_name (FS.files self) ∧
   FS.read_file old_name self' = None ∧
   (∀ other, other ≠ old_name → other ≠ new_name →
             FS.read_file other self' = FS.read_file other self) ∧
   FS.list_files self' =
     filter (λ k, k ≠ old_name) (FS.list_files self) ++ [new_name] ∧
   FS.storage self' = Some (FS.files self')).
Proof.
  unfold FS.rename_file.
  destruct (pydict.get old_name (FS.files self)) as [file_info|] eqn:Hold.
  - destruct (pydict.contains new_name (FS.files self)) eqn:Hnew.
    + apply contains_get in Hnew as [x Hx]. simpl.
      split; [split; [done | intros [_ ?]; congruence]|]. split; done.
    + apply contains_false in Hnew. simpl.
      split; [split; [by eauto | done]|]. split; [done|]. intros _.
      assert (old_name ≠ new_name) as Hne by (intros ->; congruence).
      unfold FS.read_file, FS.list_files. simpl.
      assert (pydict.get new_name (pydict.delitem old_name (FS.files self)) = None)
        as Hnew' by (by rewrite get_delitem_ne).
      split; [done|]. split; [by rewrite get_setitem_eq|].
      split; [by rewrite get_setitem_ne, get_delitem_eq|].
      split.
      { intros other Ho Hn. by rewrite get_setitem_ne, get_delitem_ne. }
      split; [|done].
      rewrite setitem_new by done. unfold pydict.keys. rewrite fmap_app. simpl.
      f_equal. apply keys_delitem.
  - simpl. split; [split; [done | by intros [[x ?] _]]|]. split; done.
Qed.

Lemma init_saved storage : FS.storage (FS.init storage) = Some (FS.files (FS.init storage)).
Proof. unfold FS.init, FS.load_filesystem. by destruct storage. Qed.

Lemma fs_step_saved c kernel self :
  FS.storage self = Some (FS.files self) →
  ∃ tr kernel' self',
    fs_step c (kernel, self) = mkM tr (Ok (kernel', self')) ∧
    FS.storage self' = Some (FS.files self').
Proof.
  intros Hsaved. destruct c as [uuid_fs uuid filename content memory_required
                               |filename|old_name new_name]; simpl.
  - unfold FS.create_file.
    destruct (pydict.contains filename (FS.files self)); [by eexists _, _, _|].
    cbn zeta.
    destruct (create_process_cases uuid
                (name (FS.base (FS._create_file_process uuid_fs filename content)))
                (priority (FS.base (FS._create_file_process uuid_fs filename content)))
                memory_required kernel)
      as [(_ & Hno)|(_ & queue & _ & Hok)].
    + rewrite Hno. by eexists _, _, _.
    + rewrite Hok. by eexists _, _, _.
  - unfold FS.remove_file.
    destruct (pydict.get filename (FS.files self)); by eexists _, _, _.
  - eexists _, _, _. split; [reflexivity|]. unfold FS.rename_file.
    destruct (pydict.get old_name (FS.files self)); [|done].
    by destruct (pydict.contains new_name (FS.files self)).
Qed.

(** Whatever storage a file system starts from and whatever is then
    created, removed and renamed, every call returns, and at the end the
    storage holds the files as they are: a file system started from it
    would be the same one. *)
Theorem storage_follows_files (storage : option (list (string * FS.info)))
    (cs : list fs_call) (kernel : Kernel.t) :
  ∃ tr kernel' self',
    fs_run cs (kernel, FS.init storage) = mkM tr (Ok (kernel', self')) ∧
    FS.storage self' = Some (FS.files self') ∧
    FS.init (FS.storage self') = self'.
Proof.
  pose proof (init_saved storage) as Hsaved.
  generalize dependent (FS.init storage). intros self. revert kernel self.
  induction cs as [|c cs IH]; intros kernel self Hsaved.
  - exists [], kernel, self. split; [done|]. split; [done|].
    destruct self as [files saved]. simpl in Hsaved. by subst saved.
  - destruct (fs_step_saved c kernel self Hsaved) as (tr1 & kernel1 & self1 & Hstep & H1).
    destruct (IH kernel1 self1 H1) as (tr2 & kernel2 & self2 & Hrun & H2 & H3).
    exists (tr1 ++ tr2), kernel2, self2. split; [|done].
    simpl. rewrite Hstep. unfold mbind, M_bind. simpl. by rewrite Hrun.
Qed.

(** [do_remove] on a file whose ['process_id'] is [None] or empty, as
    that of the README.txt a new file system starts with: the file is
    removed and the storage saved, the file system says so, and the
    command then reports that the file was not found. *)
Theorem do_remove_reports_not_found (arg : string) (kernel : Kernel.t)
    (filesystem : FS.t) (file_info : FS.info) :
  pydict.get arg (FS.files filesystem) = Some file_info →
  FS.truthy (FS.process_id file_info) = false →
  ∃ filesystem',
    FileSysCLI.do_remove arg kernel filesystem =
      mkM [Printed ("File " +:+ arg +:+ " removed successfully.");
           Printed ("[Error] File '" +:+ arg +:+ "' not found.")]
          (Ok (kernel, filesystem')) ∧
    FS.read_file arg filesystem' = None ∧
    FS.list_files filesystem' = filter (λ k, k ≠ arg) (FS.list_files filesystem) ∧
    FS.storage filesystem' = Some (FS.files filesystem').
Proof.
  intros Hheld Hfalsy. unfold FileSysCLI.do_remove, FS.remove_file.
  rewrite Hheld. cbn zeta. rewrite Hfalsy.
  eexists. split.
  - destruct (FS.process_id file_info) as [process_id|]; [|reflexivity].
    unfold mbind, M_bind. cbn [trace value print mret M_ret app].
    rewrite Hfalsy. reflexivity.
  - unfold FS.read_file, FS.list_files. simpl.
    split; [by rewrite get_delitem_eq|]. split; [apply keys_delitem | done].
Qed.

Lemma do_remove_reports_not_found_witness :
  ∃ filesystem',
    FileSysCLI.do_remove "README.txt" (Kernel.start Kernel.init) (FS.init None) =
      mkM [Printed ("File " +:+ "README.txt" +:+ " removed successfully.");
           Printed ("[Error] File '" +:+ "README.txt" +:+ "' not found.")]
          (Ok (Kernel.start Kernel.init, filesystem')) ∧
    FS.read_file "README.txt" filesystem' = None ∧
    FS.list_files filesystem' =
      filter (λ k, k ≠ "README.txt") (FS.list_files (FS.init None)) ∧
    FS.storage filesystem' = Some (FS.files filesystem').
Proof.
  apply (do_remove_reports_not_found "README.txt" (Kernel.start Kernel.init)
           (FS.init None)
           (FS.mkInfo "Welcome to SimpleFS!" 20 None)).
  - reflexivity.
  - reflexivity.
Defined.
